(** * UserList: the fetch-on-mount loader of src/components/TodoList.tsx

    The component keeps three state cells ([users], [loading], [error]) and
    one effect, keyed on the [fetchUsers] prop.  Each run of the effect
    creates a closure with its own [cancelled] variable, calls the async
    function [load], and hands React a cleanup function that sets that
    variable.  The development below embeds the cells, the closures, the
    try/catch/finally of [load] and the three render branches, and proves
    the properties of the loader on that embedding. *)

From stdpp Require Import base list strings gmap.
From Stdlib Require Import ZArith.
From Stdlib Require QArith Qround.

Local Open Scope string_scope.
Local Open Scope list_scope.
Set Warnings "-register-all".

(** ** JavaScript values: what a call can throw or a promise reject with *)

Inductive JsValue : Type :=
| JsUndefined
| JsNull
| JsBoolean (b : bool)
| JsNumber (n : Z)
| JsString (s : string)
| JsObject (props : list (string * JsValue))
| JsError (message : string).

(** [err instanceof Error]: only [JsError] values have [Error.prototype] in
    their chain; a plain object literal has not, whatever its fields. *)
Definition instanceof_Error (err : JsValue) : bool :=
  match err with
  | JsError _ => true
  | _ => false
  end.

Fixpoint prop_lookup (key : string) (props : list (string * JsValue))
  : option JsValue :=
  match props with
  | [] => None
  | (k, v) :: rest => if String.eqb k key then Some v else prop_lookup key rest
  end.

(** The property read [v.message]; [None] stands for [undefined]. *)
Definition message_field (v : JsValue) : option JsValue :=
  match v with
  | JsError message => Some (JsString message)
  | JsObject props => prop_lookup "message" props
  | _ => None
  end.

(** [err instanceof Error ? err.message : "Something went wrong"] *)
Definition error_text (err : JsValue) : string :=
  match err with
  | JsError message => message
  | _ => "Something went wrong"
  end.

(** JavaScript truthiness of a [string | null] cell, as tested by
    [if (error)]. *)
Definition truthy (e : option string) : bool :=
  match e with
  | None => false
  | Some "" => false
  | Some _ => true
  end.

(** [interface User] *)
Record User : Type := mkUser { id : Z; name : string; email : string }.

(** ** Completions and the state monad of one synchronous segment *)

(** A segment of an async function ends normally, by a throw, or by
    suspending at an [await]. *)
Inductive Completion (A : Type) : Type :=
| Normal (a : A)
| Thrown (v : JsValue)
| Suspended.
Arguments Normal {A} a.
Arguments Thrown {A} v.
Arguments Suspended {A}.

Definition Js (S A : Type) : Type := S -> Completion A * S.

Definition ret {S A : Type} (a : A) : Js S A := fun s => (Normal a, s).

Definition throw {S A : Type} (v : JsValue) : Js S A := fun s => (Thrown v, s).

Definition bind {S A B : Type} (m : Js S A) (k : A -> Js S B) : Js S B :=
  fun s =>
    match m s with
    | (Normal a, s') => k a s'
    | (Thrown v, s') => (Thrown v, s')
    | (Suspended, s') => (Suspended, s')
    end.

Notation "x <- m ;; k" := (bind m (fun x => k))
  (at level 100, m at next level, right associativity).
Notation "m ;;; k" := (bind m (fun _ => k))
  (at level 100, right associativity).

(** [try { body } catch (err) { handler } finally { finalizer }].  A body
    that suspends leaves handler and finalizer to the resumed segment; a
    throw of the finalizer replaces the earlier completion. *)
Definition try_catch_finally {S : Type}
    (body : Js S unit) (handler : JsValue -> Js S unit) (finalizer : Js S unit)
  : Js S unit :=
  fun s =>
    match body s with
    | (Suspended, s1) => (Suspended, s1)
    | (r1, s1) =>
        let '(r2, s2) :=
          match r1 with
          | Thrown err => handler err s1
          | _ => (r1, s1)
          end in
        match r2 with
        | Suspended => (Suspended, s2)
        | _ =>
            match finalizer s2 with
            | (Normal _, s3) => (r2, s3)
            | (r3, s3) => (r3, s3)
            end
        end
    end.

(** ** The component instance *)

(** One run of the effect: its [cancelled] variable, and whether its [load]
    is parked at [await fetchUsers()] (a promise settles at most once). *)
Record Closure : Type := mkClosure { cancelled : bool; suspended : bool }.

(** What the call [fetchUsers()] does: throw before returning, or return a
    promise. *)
Inductive FetchCall : Type :=
| ThrowsSync (err : JsValue)
| ReturnsPromise.

Section Loader.
Context {T : Type}.

(** How the promise returned by [fetchUsers()] settles. *)
Inductive Settlement : Type :=
| Fulfilled (data : list T)
| Rejected (reason : JsValue).

(** The [useState] cells, the closures created so far (in creation order)
    and the cleanup function React holds, named by the closure whose
    [cancelled] it sets. *)
Record UserList : Type := mkUserList {
  users : list T;
  loading : bool;
  error : option string;
  closures : list Closure;
  cleanup : option nat
}.

(** [useState([])], [useState(true)], [useState(null)]; no effect has run. *)
Definition initial : UserList :=
  {| users := []; loading := true; error := None;
     closures := []; cleanup := None |}.

Definition setUsers (data : list T) : Js UserList unit :=
  fun s => (Normal (),
            {| users := data; loading := loading s; error := error s;
               closures := closures s; cleanup := cleanup s |}).

Definition setLoading (b : bool) : Js UserList unit :=
  fun s => (Normal (),
            {| users := users s; loading := b; error := error s;
               closures := closures s; cleanup := cleanup s |}).

Definition setError (e : option string) : Js UserList unit :=
  fun s => (Normal (),
            {| users := users s; loading := loading s; error := e;
               closures := closures s; cleanup := cleanup s |}).

Definition with_closures (cs : list Closure) (s : UserList) : UserList :=
  {| users := users s; loading := loading s; error := error s;
     closures := cs; cleanup := cleanup s |}.

Definition with_cleanup (c : option nat) (s : UserList) : UserList :=
  {| users := users s; loading := loading s; error := error s;
     closures := closures s; cleanup := c |}.

(** Reading the [cancelled] variable of closure [c].  A closure that was
    never created has no [load] to read it; the default is not used by
    any run. *)
Definition read_cancelled (c : nat) : Js UserList bool :=
  fun s =>
    (Normal (match closures s !! c with
             | Some cl => cancelled cl
             | None => true
             end), s).

(** [cancelled = true] in closure [c]. *)
Definition cancel (c : nat) (s : UserList) : UserList :=
  match closures s !! c with
  | Some cl =>
      with_closures (<[c := mkClosure true (suspended cl)]> (closures s)) s
  | None => s
  end.

Definition set_suspended (c : nat) (b : bool) (s : UserList) : UserList :=
  match closures s !! c with
  | Some cl =>
      with_closures (<[c := mkClosure (cancelled cl) b]> (closures s)) s
  | None => s
  end.

(** The call [fetchUsers()] inside the [try]. *)
Definition call (fetchUsers : FetchCall) : Js UserList unit :=
  match fetchUsers with
  | ThrowsSync err => throw err
  | ReturnsPromise => ret ()
  end.

(** [await] of the returned promise: [load] of closure [c] parks. *)
Definition await (c : nat) : Js UserList unit :=
  fun s => (Suspended, set_suspended c true s).

(** The value of the [await] expression once the promise has settled: the
    data, or a throw of the rejection reason at the [await]. *)
Definition settled (o : Settlement) : Js UserList (list T) :=
  match o with
  | Fulfilled data => ret data
  | Rejected reason => throw reason
  end.

(** [catch (err) { if (!cancelled) setError(...) }] *)
Definition load_catch (c : nat) (err : JsValue) : Js UserList unit :=
  is_cancelled <- read_cancelled c ;;
  if negb is_cancelled then setError (Some (error_text err)) else ret ().

(** [finally { if (!cancelled) setLoading(false) }] *)
Definition load_finally (c : nat) : Js UserList unit :=
  is_cancelled <- read_cancelled c ;;
  if negb is_cancelled then setLoading false else ret ().

(** [load], from its call up to the [await] (or to its end when
    [fetchUsers()] throws). *)
Definition load (c : nat) (fetchUsers : FetchCall) : Js UserList unit :=
  try_catch_finally
    (setLoading true ;;;
     setError None ;;;
     call fetchUsers ;;;
     await c)
    (load_catch c)
    (load_finally c).

(** [load], resumed by the settlement of the awaited promise. *)
Definition load_resume (c : nat) (o : Settlement) : Js UserList unit :=
  try_catch_finally
    (data <- settled o ;;
     is_cancelled <- read_cancelled c ;;
     if negb is_cancelled then setUsers data else ret ())
    (load_catch c)
    (load_finally c).

(** The cleanup React holds: [() => { cancelled = true; }]. *)
Definition run_cleanup (s : UserList) : UserList :=
  match cleanup s with
  | Some c => cancel c s
  | None => s
  end.

(** The effect body: [let cancelled = false; ... load(); return cleanup]. *)
Definition effect (fetchUsers : FetchCall) : Js UserList unit :=
  fun s =>
    let c := length (closures s) in
    let s1 := with_closures (closures s ++ [mkClosure false false]) s in
    let '(r, s2) := load c fetchUsers s1 in
    (r, with_cleanup (Some c) s2).

(** What happens to a mounted component: the effect runs (on mount, and
    again after the cleanup whenever the [fetchUsers] prop changes), an
    awaited promise settles, or the component unmounts. *)
Inductive Event : Type :=
| Start (fetchUsers : FetchCall)
| Settle (c : nat) (o : Settlement)
| Dispose.

(** One event, as one synchronous segment.  React runs the cleanup of the
    previous run of the effect before it runs the effect again, and runs it
    a last time at the unmount.  A settlement resumes the [load] parked on
    that promise, if there is one; the completion returned is that of the
    segment of [load] that ran. *)
Definition step (ev : Event) : Js UserList unit :=
  fun s =>
    match ev with
    | Start fetchUsers => effect fetchUsers (run_cleanup s)
    | Settle c o =>
        match closures s !! c with
        | Some cl =>
            if suspended cl
            then load_resume c o (set_suspended c false s)
            else (Normal (), s)
        | None => (Normal (), s)
        end
    | Dispose => (Normal (), with_cleanup None (run_cleanup s))
    end.

(** The component after the event; state updates of one segment are seen
    together, at its end. *)
Definition exec (ev : Event) (s : UserList) : UserList := snd (step ev s).

Definition run (evs : list Event) (s : UserList) : UserList :=
  fold_left (fun st ev => exec ev st) evs s.

(** ** What the consumer sees: the three render branches *)

Inductive LoadState : Type :=
| Loading
| Failure (message : string)
| Success (data : list T).

(** [if (loading) ...; if (error) ...; return <user list>]: the spinner,
    the alert with the error text, or the list. *)
Definition observe (s : UserList) : LoadState :=
  if loading s then Loading
  else if truthy (error s)
       then Failure (default "" (error s))
       else Success (users s).

(** The state cells alone, without the bookkeeping of closures. *)
Definition cells (s : UserList) : list T * bool * option string :=
  (users s, loading s, error s).

End Loader.

Arguments UserList T : clear implicits.
Arguments Settlement T : clear implicits.
Arguments Event T : clear implicits.
Arguments LoadState T : clear implicits.

(** ** Reachable states *)

(** The states a mounted component passes through, from its creation. *)
Inductive reachable {T : Type} : UserList T -> Prop :=
| reachable_initial : reachable initial
| reachable_exec (ev : Event T) (s : UserList T) :
    reachable s -> reachable (exec ev s).

(** Closure [c] is the one whose [load] is parked at the [await]. *)
Definition pending {T : Type} (c : nat) (s : UserList T) : Prop :=
  exists cl, closures s !! c = Some cl /\ suspended cl = true.

(** [evs] holds only settlements, none of them of closure [c]. *)
Definition settlements_except {T : Type} (c : nat) (evs : list (Event T)) : Prop :=
  Forall (fun ev => match ev with
                    | Settle c' _ => c' <> c
                    | _ => False
                    end) evs.

(** [evs] holds only settlements. *)
Definition settlements_only {T : Type} (evs : list (Event T)) : Prop :=
  Forall (fun ev => match ev with Settle _ _ => True | _ => False end) evs.

(** The invariant of the closures: every closure but the one React holds the
    cleanup of has been cancelled; while a live closure is parked the
    component shows the spinner; and the spinner comes with no error. *)
Record consistent {T : Type} (s : UserList T) : Prop := mkConsistent {
  stale_cancelled : forall c cl,
    closures s !! c = Some cl -> cleanup s <> Some c -> cancelled cl = true;
  parked_loading : forall c cl,
    closures s !! c = Some cl -> cancelled cl = false -> suspended cl = true ->
    loading s = true;
  loading_no_error : loading s = true -> error s = None
}.

(** No parked [load] is live: whatever settles, nothing will be committed. *)
Definition quiet {T : Type} (s : UserList T) : Prop :=
  forall c cl, closures s !! c = Some cl -> suspended cl = true ->
               cancelled cl = true.

(** Closure [c] is live and parked at its [await], every other closure is
    cancelled, and the component shows the spinner. *)
Record current_parked {T : Type} (c : nat) (s : UserList T) : Prop :=
  mkCurrentParked {
    cp_closure : closures s !! c = Some (mkClosure false true);
    cp_others : forall c' cl,
      c' <> c -> closures s !! c' = Some cl -> cancelled cl = true;
    cp_loading : loading s = true;
    cp_error : error s = None
  }.

(** * TodoList: the list component of the same file *)

Module TodoList.

(** A JavaScript string as its UTF-16 code units. *)
Definition code_units : Type := list N.

(** The code units [String.prototype.trim] strips: WhiteSpace (TAB, VT, FF,
    ZWNBSP and the space separators) and LineTerminator (LF, CR, LS, PS). *)
Definition is_white_space (c : N) : bool :=
  match c with
  | 9 | 10 | 11 | 12 | 13 | 32 | 160 | 5760
  | 8232 | 8233 | 8239 | 8287 | 12288 | 65279 => true
  | _ => (8192 <=? c) && (c <=? 8202)
  end%N.

Fixpoint trimStart (s : code_units) : code_units :=
  match s with
  | [] => []
  | c :: rest => if is_white_space c then trimStart rest else s
  end.

Definition trimEnd (s : code_units) : code_units :=
  rev (trimStart (rev s)).

(** [s.trim()] *)
Definition trim (s : code_units) : code_units := trimEnd (trimStart s).

(** [!text] for a string: only the empty string is falsy. *)
Definition falsy (s : code_units) : bool :=
  match s with
  | [] => true
  | _ :: _ => false
  end.

(** [interface Todo] *)
Record Todo : Type := mkTodo { id : Z; text : code_units; completed : bool }.

(** ["all" | "active" | "completed"] *)
Inductive Filter : Type := All | Active | Completed.

(** The three [useState] cells. *)
Record State : Type := mkState {
  todos : list Todo;
  input : code_units;
  filter : Filter
}.

(** [useState([])], [useState("")], [useState("all")] *)
Definition initial : State :=
  {| todos := []; input := []; filter := All |}.

(** [addTodo]; [now] is what [Date.now()] returns at the call. *)
Definition addTodo (now : Z) (s : State) : State :=
  let text := trim (input s) in
  if falsy text then s
  else {| todos := todos s ++ [mkTodo now text false];
          input := [];
          filter := filter s |}.

(** [toggleTodo] *)
Definition toggleTodo (i : Z) (s : State) : State :=
  {| todos := map (fun t => if Z.eqb (id t) i
                            then mkTodo (id t) (text t) (negb (completed t))
                            else t) (todos s);
     input := input s;
     filter := filter s |}.

(** [deleteTodo] *)
Definition deleteTodo (i : Z) (s : State) : State :=
  {| todos := List.filter (fun t => negb (Z.eqb (id t) i)) (todos s);
     input := input s;
     filter := filter s |}.

(** [onChange={(e) => setInput(e.target.value)}] *)
Definition setInput (v : code_units) (s : State) : State :=
  {| todos := todos s; input := v; filter := filter s |}.

(** [onClick={() => setFilter(f)}] *)
Definition setFilter (f : Filter) (s : State) : State :=
  {| todos := todos s; input := input s; filter := f |}.

(** The predicate of [filteredTodos], for a given filter. *)
Definition shown (f : Filter) (t : Todo) : bool :=
  match f with
  | Active => negb (completed t)
  | Completed => completed t
  | All => true
  end.

Definition filteredTodos (s : State) : list Todo :=
  List.filter (shown (filter s)) (todos s).

Definition activeCount (s : State) : nat :=
  length (List.filter (fun t => negb (completed t)) (todos s)).

(** The filter as it is spliced into the template string. *)
Definition filter_name (f : Filter) : string :=
  match f with
  | All => "all"
  | Active => "active"
  | Completed => "completed"
  end.

(** The text of the [empty-message] paragraph, when it is rendered. *)
Definition empty_message (s : State) : option string :=
  if Nat.eqb (length (filteredTodos s)) 0
  then Some (if Nat.eqb (length (todos s)) 0
             then "No tasks yet. Add one above!"
             else String.append "No "
                    (String.append (filter_name (filter s)) " tasks."))
  else None.

(** What the user can do: type, click Add or press Enter (both call
    [addTodo]), tick a checkbox, click Delete, pick a filter tab. *)
Inductive Action : Type :=
| Type_ (v : code_units)
| Add (now : Z)
| Toggle (i : Z)
| Delete (i : Z)
| Pick (f : Filter).

Definition act (a : Action) (s : State) : State :=
  match a with
  | Type_ v => setInput v s
  | Add now => addTodo now s
  | Toggle i => toggleTodo i s
  | Delete i => deleteTodo i s
  | Pick f => setFilter f s
  end.

Definition run (acts : list Action) (s : State) : State :=
  fold_left (fun st a => act a st) acts s.

(** The values [Date.now()] returned at the adds of a run, in order. *)
Definition clock (acts : list Action) : list Z :=
  omap (fun a => match a with Add now => Some now | _ => None end) acts.

End TodoList.

(** * Counter: the counter component of the same file *)

Module Counter.

(** What [update] and the buttons do with JavaScript numbers: compare, add,
    subtract.  The properties below hold for every reading of these
    operations, the IEEE doubles of JavaScript among them. *)
Class Number (num : Type) : Type := {
  num_gt : num -> num -> bool;
  num_ge : num -> num -> bool;
  num_neq : num -> num -> bool;
  num_add : num -> num -> num;
  num_sub : num -> num -> num;
  num_zero : num
}.

(** The integers as numbers. *)
#[global] Instance Z_Number : Number Z := {|
  num_gt := Z.gtb;
  num_ge := Z.geb;
  num_neq := fun a b => negb (Z.eqb a b);
  num_add := Z.add;
  num_sub := Z.sub;
  num_zero := 0%Z
|}.

Section Component.
Context {num : Type} `{Number num}.

(** [CounterProps], after the defaults; [onCountChange] tells whether the
    callback is passed, [max] is [None] for [undefined]. *)
Record Props : Type := mkProps {
  initialCount : num;
  step : num;
  onCountChange : bool;
  max : option num
}.

(** The [count] cell, and the arguments [onCountChange] has been called
    with so far, the latest first. *)
Record State : Type := mkState { count : num; calls : list num }.

(** [useState(initialCount)] *)
Definition initial (p : Props) : State :=
  {| count := initialCount p; calls := [] |}.

(** [setCount(newCount); onCountChange?.(newCount)] *)
Definition commit (p : Props) (newCount : num) (s : State) : State :=
  {| count := newCount;
     calls := if onCountChange p then newCount :: calls s else calls s |}.

(** [update] *)
Definition update (p : Props) (newCount : num) (s : State) : State :=
  match max p with
  | Some m => if num_gt newCount m then s else commit p newCount s
  | None => commit p newCount s
  end.

(** [max !== undefined && count >= max]: the Increment button is disabled
    and the alert is shown. *)
Definition at_max (p : Props) (s : State) : bool :=
  match max p with
  | Some m => num_ge (count s) m
  | None => false
  end.

(** The three buttons.  A click on the disabled Increment button does
    nothing, and the Reset button is there only while [count !== 0]. *)
Inductive Click : Type := Decrement | Increment | Reset.

Definition click (p : Props) (c : Click) (s : State) : State :=
  match c with
  | Decrement => update p (num_sub (count s) (step p)) s
  | Increment =>
      if at_max p s then s else update p (num_add (count s) (step p)) s
  | Reset => if num_neq (count s) num_zero then update p num_zero s else s
  end.

Definition run (p : Props) (cs : list Click) (s : State) : State :=
  fold_left (fun st c => click p c st) cs s.

End Component.

Arguments Props num : clear implicits.
Arguments State num : clear implicits.

End Counter.

(** * Regular expressions, for the two e-mail patterns of the repository *)

Module Regex.

(** The fragment the patterns use: character classes, concatenation and
    [+] (through [Star]); over UTF-16 code units, as a pattern without the
    [u] flag. *)
Inductive re : Type :=
| Void
| Eps
| Class (p : N -> bool)
| Cat (r1 r2 : re)
| Alt (r1 r2 : re)
| Star (r : re).

(** [r+] *)
Definition Plus (r : re) : re := Cat r (Star r).

(** The single character [c]. *)
Definition Chr (c : N) : re := Class (N.eqb c).

(** The strings a pattern matches, from its first to its last character. *)
Inductive Match : re -> list N -> Prop :=
| Match_Eps : Match Eps []
| Match_Class p c : p c = true -> Match (Class p) [c]
| Match_Cat r1 r2 u1 u2 :
    Match r1 u1 -> Match r2 u2 -> Match (Cat r1 r2) (u1 ++ u2)
| Match_Alt_l r1 r2 u : Match r1 u -> Match (Alt r1 r2) u
| Match_Alt_r r1 r2 u : Match r2 u -> Match (Alt r1 r2) u
| Match_Star_nil r : Match (Star r) []
| Match_Star_app r u1 u2 :
    Match r u1 -> Match (Star r) u2 -> Match (Star r) (u1 ++ u2).

Fixpoint nullable (r : re) : bool :=
  match r with
  | Void => false
  | Eps => true
  | Class _ => false
  | Cat r1 r2 => nullable r1 && nullable r2
  | Alt r1 r2 => nullable r1 || nullable r2
  | Star _ => true
  end.

(** The derivative of a pattern by a first character. *)
Fixpoint deriv (c : N) (r : re) : re :=
  match r with
  | Void => Void
  | Eps => Void
  | Class p => if p c then Eps else Void
  | Cat r1 r2 =>
      if nullable r1
      then Alt (Cat (deriv c r1) r2) (deriv c r2)
      else Cat (deriv c r1) r2
  | Alt r1 r2 => Alt (deriv c r1) (deriv c r2)
  | Star r0 => Cat (deriv c r0) (Star r0)
  end.

(** Whether the pattern matches the whole string. *)
Fixpoint matches (r : re) (u : list N) : bool :=
  match u with
  | [] => nullable r
  | c :: rest => matches (deriv c r) rest
  end.

(** Any characters, as before and after a match that is not anchored. *)
Definition anything : re := Star (Class (fun _ => true)).

(** [/^r$/.test(u)] *)
Definition test_anchored (r : re) (u : list N) : bool := matches r u.

(** [/r/.test(u)]: the match may begin and end anywhere in [u]. *)
Definition test (r : re) (u : list N) : bool :=
  matches (Cat anything (Cat r anything)) u.

(** [\S] *)
Definition non_space : re :=
  Class (fun c => negb (TodoList.is_white_space c)).

(** [[^\s@]] *)
Definition non_space_non_at : re :=
  Class (fun c => negb (TodoList.is_white_space c || N.eqb c 64)).

(** [\S+@\S+\.\S+], the pattern of [validate] in the login form. *)
Definition form_email : re :=
  Cat (Plus non_space)
      (Cat (Chr 64) (Cat (Plus non_space) (Cat (Chr 46) (Plus non_space)))).

(** [[^\s@]+@[^\s@]+\.[^\s@]+], the pattern of [isValidEmail], which is
    anchored at both ends. *)
Definition valid_email : re :=
  Cat (Plus non_space_non_at)
      (Cat (Chr 64)
           (Cat (Plus non_space_non_at)
                (Cat (Chr 46) (Plus non_space_non_at)))).

End Regex.

(** * helpers.ts *)

Module Helpers.

(** A JavaScript number where it is only compared and rounded: a finite
    double is a rational, and there are [NaN] and the two infinities
    ([-0] is the rational 0: it compares and rounds like [+0]). *)
Inductive JsNumber : Type :=
| Finite (q : QArith_base.Q)
| NaN
| PosInfinity
| NegInfinity.

(** [n < 0] *)
Definition lt_zero (n : JsNumber) : bool :=
  match n with
  | Finite q => negb (QArith_base.Qle_bool (QArith_base.inject_Z 0) q)
  | NegInfinity => true
  | NaN | PosInfinity => false
  end.

(** [len <= n], for a length [len]. *)
Definition length_le (len : nat) (n : JsNumber) : bool :=
  match n with
  | Finite q => QArith_base.Qle_bool (QArith_base.inject_Z (Z.of_nat len)) q
  | PosInfinity => true
  | NaN | NegInfinity => false
  end.

(** [text.slice(0, n)]: [n] is rounded toward zero ([NaN] to 0), a
    negative end counts from the end of the string, and the end is clamped
    to the string. *)
Definition slice0 (text : list N) (n : JsNumber) : list N :=
  match n with
  | Finite q =>
      if QArith_base.Qle_bool (QArith_base.inject_Z 0) q
      then take (Z.to_nat (Qround.Qfloor q)) text
      else take (Z.to_nat (Z.of_nat (length text) + Qround.Qceiling q)) text
  | NaN => []
  | PosInfinity => text
  | NegInfinity => []
  end.

(** [truncate] *)
Definition truncate (text : list N) (maxLength : JsNumber)
  : Completion (list N) :=
  if lt_zero maxLength
  then Thrown (JsError "maxLength must be non-negative")
  else if length_le (length text) maxLength
       then Normal text
       else Normal (slice0 text maxLength ++ [8230%N]).

(** [isValidEmail] *)
Definition isValidEmail (email : list N) : bool :=
  Regex.test_anchored Regex.valid_email email.

End Helpers.

(** * LoginForm *)

Module LoginForm.

(** The five [useState] cells, the calls made to [onSubmit] so far (latest
    first) and the number of [handleSubmit] calls parked at their [await]. *)
Record State : Type := mkState {
  email : list N;
  password : list N;
  errors : gmap string string;
  isSubmitting : bool;
  success : bool;
  submitted : list (list N * list N);
  parked : nat
}.

Definition initial : State :=
  {| email := []; password := []; errors := ∅; isSubmitting := false;
     success := false; submitted := []; parked := 0 |}.

Definition setEmail (v : list N) : Js State unit :=
  fun s => (Normal (),
            {| email := v; password := password s; errors := errors s;
               isSubmitting := isSubmitting s; success := success s;
               submitted := submitted s; parked := parked s |}).

Definition setPassword (v : list N) : Js State unit :=
  fun s => (Normal (),
            {| email := email s; password := v; errors := errors s;
               isSubmitting := isSubmitting s; success := success s;
               submitted := submitted s; parked := parked s |}).

Definition setErrors (e : gmap string string) : Js State unit :=
  fun s => (Normal (),
            {| email := email s; password := password s; errors := e;
               isSubmitting := isSubmitting s; success := success s;
               submitted := submitted s; parked := parked s |}).

Definition setIsSubmitting (b : bool) : Js State unit :=
  fun s => (Normal (),
            {| email := email s; password := password s; errors := errors s;
               isSubmitting := b; success := success s;
               submitted := submitted s; parked := parked s |}).

Definition setSuccess (b : bool) : Js State unit :=
  fun s => (Normal (),
            {| email := email s; password := password s; errors := errors s;
               isSubmitting := isSubmitting s; success := b;
               submitted := submitted s; parked := parked s |}).

(** [!email]: the empty string. *)
Definition falsy (v : list N) : bool :=
  match v with
  | [] => true
  | _ :: _ => false
  end.

(** The [newErrors] object [validate] builds. *)
Definition newErrors (s : State) : gmap string string :=
  let e1 : gmap string string :=
    if falsy (email s) then {[ "email" := "Email is required" ]}
    else if negb (Regex.test Regex.form_email (email s))
         then {[ "email" := "Invalid email format" ]}
         else ∅ in
  if falsy (password s) then <[ "password" := "Password is required" ]> e1
  else if Nat.ltb (length (password s)) 6
       then <[ "password" := "Password must be at least 6 characters" ]> e1
       else e1.

(** [validate]; [Object.keys(newErrors).length === 0] is emptiness. *)
Definition validate : Js State bool :=
  fun s =>
    let e := newErrors s in
    match setErrors e s with
    | (_, s') => (Normal (bool_decide (e = ∅)), s')
    end.

(** The call [onSubmit({ email, password })]: it is recorded, and it
    throws or returns (a promise, or nothing, which [await] treats as a
    fulfilled promise). *)
Definition call_onSubmit (onSubmit : FetchCall) : Js State unit :=
  fun s =>
    let s' := {| email := email s; password := password s;
                 errors := errors s; isSubmitting := isSubmitting s;
                 success := success s;
                 submitted := (email s, password s) :: submitted s;
                 parked := parked s |} in
    match onSubmit with
    | ThrowsSync err => (Thrown err, s')
    | ReturnsPromise => (Normal (), s')
    end.

Definition await : Js State unit :=
  fun s =>
    (Suspended,
     {| email := email s; password := password s; errors := errors s;
        isSubmitting := isSubmitting s; success := success s;
        submitted := submitted s; parked := S (parked s) |}).

(** How the awaited value settles. *)
Inductive Settlement : Type :=
| Fulfilled
| Rejected (reason : JsValue).

Definition settled (o : Settlement) : Js State unit :=
  match o with
  | Fulfilled => ret ()
  | Rejected reason => throw reason
  end.

(** [catch { setErrors({ form: ... }) }] *)
Definition submit_catch (err : JsValue) : Js State unit :=
  setErrors {[ "form" := "Login failed. Please try again." ]}.

(** [finally { setIsSubmitting(false) }] *)
Definition submit_finally : Js State unit := setIsSubmitting false.

(** [handleSubmit], from the submit event up to the [await] (or to its end
    when validation fails or [onSubmit] throws). *)
Definition handleSubmit (onSubmit : FetchCall) : Js State unit :=
  ok <- validate ;;
  if negb ok then ret ()
  else
    setIsSubmitting true ;;;
    try_catch_finally
      (call_onSubmit onSubmit ;;; await)
      submit_catch
      submit_finally.

(** [handleSubmit], resumed by the settlement of what it awaited. *)
Definition handleSubmit_resume (o : Settlement) : Js State unit :=
  try_catch_finally
    (settled o ;;;
     setSuccess true ;;;
     setEmail [] ;;;
     setPassword [] ;;;
     setErrors ∅)
    submit_catch
    submit_finally.

(** Typing in the two fields, a submit event, and the settlement of a
    parked [handleSubmit]. *)
Inductive Event : Type :=
| ChangeEmail (v : list N)
| ChangePassword (v : list N)
| Submit (onSubmit : FetchCall)
| Settle (o : Settlement).

Definition step (ev : Event) : Js State unit :=
  fun s =>
    match ev with
    | ChangeEmail v => setEmail v s
    | ChangePassword v => setPassword v s
    | Submit onSubmit => handleSubmit onSubmit s
    | Settle o =>
        match parked s with
        | O => (Normal (), s)
        | S n =>
            handleSubmit_resume o
              {| email := email s; password := password s;
                 errors := errors s; isSubmitting := isSubmitting s;
                 success := success s; submitted := submitted s;
                 parked := n |}
        end
    end.

Definition exec (ev : Event) (s : State) : State := snd (step ev s).

Definition run (evs : list Event) (s : State) : State :=
  fold_left (fun st ev => exec ev st) evs s.

(** The fields pass [validate]: the e-mail matches the pattern and the
    password has six UTF-16 code units or more. *)
Definition fields_valid (s : State) : Prop :=
  Regex.test Regex.form_email (email s) = true /\ 6 <= length (password s).

(** [evs] holds only typing in the two fields. *)
Definition typing (evs : list Event) : Prop :=
  Forall (fun ev => match ev with
                    | ChangeEmail _ | ChangePassword _ => True
                    | _ => False
                    end) evs.

End LoginForm.

(** ** The steps, in closed form *)

(** Reads of the closure that a segment has just written. *)
Ltac resume_closure :=
  repeat (simpl; rewrite list_lookup_insert_eq by done); simpl; try done.

Section Steps.
Context {T : Type}.
Implicit Types (s : UserList T) (c : nat) (cl : Closure) (o : Settlement T).

Lemma lookup_snoc_last (l : list Closure) (x : Closure) :
  (l ++ [x]) !! length l = Some x.
Proof. rewrite lookup_app_r by lia. by rewrite Nat.sub_diag. Qed.

Lemma insert_snoc_last (l : list Closure) (x y : Closure) :
  <[length l := y]> (l ++ [x]) = l ++ [y].
Proof.
  rewrite insert_app_r_alt by lia. by rewrite Nat.sub_diag.
Qed.

Lemma run_cleanup_cells s : cells (run_cleanup s) = cells s.
Proof.
  unfold run_cleanup, cancel.
  destruct (cleanup s) as [c|]; [|done].
  by destruct (closures s !! c).
Qed.

Lemma run_cleanup_length s :
  length (closures (run_cleanup s)) = length (closures s).
Proof.
  unfold run_cleanup, cancel.
  destruct (cleanup s) as [c|]; [|done].
  destruct (closures s !! c); [|done].
  simpl. by rewrite length_insert.
Qed.

Lemma run_cleanup_cleanup s : cleanup (run_cleanup s) = cleanup s.
Proof.
  unfold run_cleanup, cancel.
  destruct (cleanup s) as [c|] eqn:E; [|done].
  by destruct (closures s !! c).
Qed.

(** After the cleanup, the closure it belongs to is cancelled and the
    others keep their variables. *)
Lemma run_cleanup_lookup s c cl :
  closures (run_cleanup s) !! c = Some cl ->
  exists cl0, closures s !! c = Some cl0 /\
              suspended cl = suspended cl0 /\
              cancelled cl =
                (if decide (cleanup s = Some c) then true else cancelled cl0).
Proof.
  unfold run_cleanup, cancel.
  destruct (cleanup s) as [k|] eqn:E.
  - destruct (closures s !! k) as [clk|] eqn:Ek.
    + simpl. destruct (decide (k = c)) as [->|Hne].
      * rewrite list_lookup_insert_eq by (eapply lookup_lt_Some; eauto).
        intros [= <-]. exists clk. rewrite decide_True by done. done.
      * rewrite list_lookup_insert_ne by done.
        intros H. exists cl. rewrite decide_False by congruence. done.
    + intros H. exists cl. split; [done|]. split; [done|].
      case_decide as Hd; [|done]. congruence.
  - intros H. exists cl. by rewrite decide_False.
Qed.

(** A start whose [fetchUsers()] returns a promise: spinner on, error
    cleared, a fresh parked closure. *)
Lemma exec_start_promise s :
  exec (Start ReturnsPromise) s =
  {| users := users s; loading := true; error := None;
     closures := closures (run_cleanup s) ++ [mkClosure false true];
     cleanup := Some (length (closures s)) |}.
Proof.
  pose proof (run_cleanup_cells s) as Hc.
  pose proof (run_cleanup_length s) as Hl.
  unfold cells in Hc. injection Hc as Hu _ _.
  unfold exec, step, effect, load, try_catch_finally, bind, await,
    set_suspended, with_cleanup; simpl.
  rewrite lookup_snoc_last. simpl.
  rewrite insert_snoc_last. by rewrite Hu, Hl.
Qed.

(** A start whose [fetchUsers()] throws: the throw is caught at once. *)
Lemma exec_start_throw s err :
  exec (Start (ThrowsSync err)) s =
  {| users := users s; loading := false; error := Some (error_text err);
     closures := closures (run_cleanup s) ++ [mkClosure false false];
     cleanup := Some (length (closures s)) |}.
Proof.
  pose proof (run_cleanup_cells s) as Hc.
  pose proof (run_cleanup_length s) as Hl.
  unfold cells in Hc. injection Hc as Hu _ _.
  unfold exec, step, effect, load, try_catch_finally, bind, load_catch,
    load_finally, read_cancelled, bind, with_cleanup; simpl.
  repeat (rewrite lookup_snoc_last; simpl).
  by rewrite Hu, Hl.
Qed.

Lemma exec_dispose s :
  exec Dispose s = with_cleanup None (run_cleanup s).
Proof. done. Qed.

(** A settlement nobody waits for (the promise has settled before, or the
    call threw) resumes nothing. *)
Lemma exec_settle_absent s c o :
  closures s !! c = None -> exec (Settle c o) s = s.
Proof. intros H. unfold exec, step. by rewrite H. Qed.

Lemma exec_settle_not_parked s c cl o :
  closures s !! c = Some cl -> suspended cl = false ->
  exec (Settle c o) s = s.
Proof. intros H Hs. unfold exec, step. by rewrite H, Hs. Qed.

(** A settlement that resumes a cancelled [load] only un-parks it. *)
Lemma exec_settle_cancelled s c cl o :
  closures s !! c = Some cl -> suspended cl = true -> cancelled cl = true ->
  exec (Settle c o) s =
  with_closures (<[c := mkClosure true false]> (closures s)) s.
Proof.
  intros H Hs Hc. unfold exec, step. rewrite H, Hs.
  unfold load_resume, try_catch_finally, bind, settled, load_catch,
    load_finally, read_cancelled, bind, set_suspended.
  rewrite H, Hc.
  assert (Hlt : c < length (closures s)) by (eapply lookup_lt_Some; eauto).
  destruct o; resume_closure.
Qed.

(** The live [load] resumed by a fulfilment commits the data. *)
Lemma exec_settle_fulfilled s c cl data :
  closures s !! c = Some cl -> suspended cl = true -> cancelled cl = false ->
  exec (Settle c (Fulfilled data)) s =
  {| users := data; loading := false; error := error s;
     closures := <[c := mkClosure false false]> (closures s);
     cleanup := cleanup s |}.
Proof.
  intros H Hs Hc. unfold exec, step. rewrite H, Hs.
  unfold load_resume, try_catch_finally, bind, settled, load_catch,
    load_finally, read_cancelled, bind, set_suspended.
  rewrite H, Hc.
  assert (Hlt : c < length (closures s)) by (eapply lookup_lt_Some; eauto).
  resume_closure.
Qed.

(** The live [load] resumed by a rejection commits the error text. *)
Lemma exec_settle_rejected s c cl reason :
  closures s !! c = Some cl -> suspended cl = true -> cancelled cl = false ->
  exec (Settle c (Rejected reason)) s =
  {| users := users s; loading := false; error := Some (error_text reason);
     closures := <[c := mkClosure false false]> (closures s);
     cleanup := cleanup s |}.
Proof.
  intros H Hs Hc. unfold exec, step. rewrite H, Hs.
  unfold load_resume, try_catch_finally, bind, settled, load_catch,
    load_finally, read_cancelled, bind, set_suspended.
  rewrite H, Hc.
  assert (Hlt : c < length (closures s)) by (eapply lookup_lt_Some; eauto).
  resume_closure.
Qed.

End Steps.

(** ** The invariant holds in every reachable state *)

Section Invariant.
Context {T : Type}.
Implicit Types (s : UserList T) (c : nat) (cl : Closure) (o : Settlement T).

Lemma consistent_initial : consistent (@initial T).
Proof. split; simpl; [intros c cl H | intros c cl H | done]; by destruct c. Qed.

(** A closure that is not cancelled is the one React holds the cleanup of. *)
Lemma live_is_current s c cl :
  consistent s -> closures s !! c = Some cl -> cancelled cl = false ->
  cleanup s = Some c.
Proof.
  intros I H Hc. destruct (decide (cleanup s = Some c)) as [|Hne]; [done|].
  pose proof (stale_cancelled s I c cl H Hne). congruence.
Qed.

(** After the cleanup has run every closure is cancelled. *)
Lemma run_cleanup_all_cancelled s c cl :
  consistent s -> closures (run_cleanup s) !! c = Some cl ->
  cancelled cl = true.
Proof.
  intros I H. apply run_cleanup_lookup in H as (cl0 & H0 & _ & Hc).
  case_decide as Hd; [done|]. rewrite Hc. by eapply stale_cancelled.
Qed.

(** The closures after a start: the old ones, all cancelled, and the
    fresh one at the end. *)
Lemma started_lookup s c cl new :
  consistent s ->
  (closures (run_cleanup s) ++ [new]) !! c = Some cl ->
  (c < length (closures s) /\ cancelled cl = true) \/
  (c = length (closures s) /\ cl = new).
Proof.
  intros I H. pose proof (run_cleanup_length s) as Hl.
  apply lookup_app_Some in H as [H | [Hge H]].
  - left. split.
    + rewrite <- Hl. by eapply lookup_lt_Some.
    + by eapply run_cleanup_all_cancelled.
  - right. rewrite Hl in *.
    destruct (c - length (closures s)) as [|k] eqn:E; simpl in H; [|by destruct k].
    split; [lia | congruence].
Qed.

Lemma consistent_start s fetchUsers :
  consistent s -> consistent (exec (Start fetchUsers) s).
Proof.
  intros I. destruct fetchUsers as [err|].
  - rewrite exec_start_throw. split; simpl; [| |done].
    + intros c cl H Hne.
      apply started_lookup in H as [[_ ?] | [-> _]]; [done | done | congruence].
    + intros c cl H Hc Hs.
      apply started_lookup in H as [[_ ?] | [_ ->]]; [congruence | done | done].
  - rewrite exec_start_promise. split; simpl; [|done|done].
    intros c cl H Hne.
    apply started_lookup in H as [[_ ?] | [-> _]]; [done | done | congruence].
Qed.

Lemma consistent_dispose s : consistent s -> consistent (exec Dispose s).
Proof.
  intros I. rewrite exec_dispose.
  pose proof (run_cleanup_cells s) as Hcells. unfold cells in Hcells.
  injection Hcells as Hu Hl He.
  split; simpl.
  - intros c cl H _. by eapply run_cleanup_all_cancelled.
  - intros c cl H Hc _.
    pose proof (run_cleanup_all_cancelled s c cl I H). congruence.
  - rewrite Hl, He. apply (loading_no_error s I).
Qed.

Lemma consistent_settle s c o :
  consistent s -> consistent (exec (Settle c o) s).
Proof.
  intros I. destruct (closures s !! c) as [cl|] eqn:H.
  2: { by rewrite exec_settle_absent. }
  destruct (suspended cl) eqn:Hs.
  2: { by erewrite exec_settle_not_parked. }
  assert (Hlt : c < length (closures s)) by (eapply lookup_lt_Some; eauto).
  destruct (cancelled cl) eqn:Hc.
  - erewrite exec_settle_cancelled by eauto. split; simpl.
    + intros c' cl' H' Hne. destruct (decide (c = c')) as [<-|Hd].
      * rewrite list_lookup_insert_eq in H' by done. by injection H' as <-.
      * rewrite list_lookup_insert_ne in H' by done.
        by eapply stale_cancelled.
    + intros c' cl' H' Hc' Hs'. destruct (decide (c = c')) as [<-|Hd].
      * rewrite list_lookup_insert_eq in H' by done. by injection H' as <-.
      * rewrite list_lookup_insert_ne in H' by done.
        by eapply parked_loading.
    + apply (loading_no_error s I).
  - pose proof (live_is_current s c cl I H Hc) as Hcur.
    assert (Hothers : forall c' cl',
              <[c := mkClosure false false]> (closures s) !! c' = Some cl' ->
              cancelled cl' = false -> suspended cl' = false).
    { intros c' cl' H' Hc'. destruct (decide (c = c')) as [<-|Hd].
      - rewrite list_lookup_insert_eq in H' by done. by injection H' as <-.
      - rewrite list_lookup_insert_ne in H' by done.
        pose proof (live_is_current s c' cl' I H' Hc'). congruence. }
    assert (Hstale : forall c' cl',
              <[c := mkClosure false false]> (closures s) !! c' = Some cl' ->
              cleanup s <> Some c' -> cancelled cl' = true).
    { intros c' cl' H' Hne. destruct (decide (c = c')) as [<-|Hd]; [done|].
      rewrite list_lookup_insert_ne in H' by done.
      by eapply stale_cancelled. }
    destruct o as [data|reason].
    + erewrite exec_settle_fulfilled by eauto. split; simpl; [done| |done].
      intros c' cl' H' Hc' Hs'.
      pose proof (Hothers c' cl' H' Hc'). congruence.
    + erewrite exec_settle_rejected by eauto. split; simpl; [done| |done].
      intros c' cl' H' Hc' Hs'.
      pose proof (Hothers c' cl' H' Hc'). congruence.
Qed.

Lemma consistent_exec ev s : consistent s -> consistent (exec ev s).
Proof.
  destruct ev; [apply consistent_start | apply consistent_settle
               | apply consistent_dispose].
Qed.

Lemma reachable_consistent s : reachable s -> consistent s.
Proof.
  induction 1 as [|ev s _ IH]; [apply consistent_initial|].
  by apply consistent_exec.
Qed.

Lemma reachable_run evs s : reachable s -> reachable (run evs s).
Proof.
  revert s. induction evs as [|ev evs IH]; intros s R; simpl; [done|].
  apply IH. by constructor.
Qed.

Lemma consistent_run evs s : consistent s -> consistent (run evs s).
Proof.
  revert s. induction evs as [|ev evs IH]; intros s I; simpl; [done|].
  apply IH. by apply consistent_exec.
Qed.

End Invariant.

(** ** Settlements that commit nothing, and the one that commits *)

Section Settlements.
Context {T : Type}.
Implicit Types (s : UserList T) (c : nat) (cl : Closure) (o : Settlement T).

(** The settlement of a promise whose [load] is not both parked and live
    leaves the component as it is, or only un-parks the closure. *)
Lemma exec_settle_discarded s c o :
  (forall cl, closures s !! c = Some cl -> suspended cl = true ->
              cancelled cl = true) ->
  exec (Settle c o) s = s \/
  (c < length (closures s) /\
   exec (Settle c o) s =
     with_closures (<[c := mkClosure true false]> (closures s)) s).
Proof.
  intros Hq. destruct (closures s !! c) as [cl|] eqn:H.
  2: { left. by apply exec_settle_absent. }
  destruct (suspended cl) eqn:Hs.
  2: { left. by eapply exec_settle_not_parked. }
  right. split; [by eapply lookup_lt_Some|].
  eapply exec_settle_cancelled; eauto.
Qed.

Lemma exec_settle_length s c o :
  length (closures (exec (Settle c o) s)) = length (closures s).
Proof.
  destruct (closures s !! c) as [cl|] eqn:H.
  2: { by rewrite exec_settle_absent. }
  destruct (suspended cl) eqn:Hs.
  2: { by erewrite exec_settle_not_parked. }
  destruct (cancelled cl) eqn:Hc.
  - erewrite exec_settle_cancelled by eauto. simpl. by rewrite length_insert.
  - destruct o.
    + erewrite exec_settle_fulfilled by eauto. simpl. by rewrite length_insert.
    + erewrite exec_settle_rejected by eauto. simpl. by rewrite length_insert.
Qed.

Lemma quiet_settle s c o :
  quiet s ->
  quiet (exec (Settle c o) s) /\ cells (exec (Settle c o) s) = cells s.
Proof.
  intros Hq.
  destruct (exec_settle_discarded s c o (Hq c)) as [-> | [Hlt ->]]; [done|].
  split; [|done].
  intros c' cl' H' Hs'. simpl in H'.
  destruct (decide (c = c')) as [<-|Hd].
  - rewrite list_lookup_insert_eq in H' by done. by injection H' as <-.
  - rewrite list_lookup_insert_ne in H' by done. by eapply Hq.
Qed.

(** Once quiet, settlements never change the cells again. *)
Lemma quiet_run s evs :
  quiet s -> settlements_only evs -> cells (run evs s) = cells s.
Proof.
  revert s. induction evs as [|ev evs IH]; intros s Hq Hevs; simpl; [done|].
  inversion Hevs as [|? ? Hev Hrest]; subst.
  destruct ev as [|c o|]; [done| |done].
  destruct (quiet_settle s c o Hq) as [Hq' Hcells].
  rewrite IH by done. done.
Qed.

Lemma current_parked_settle s c c' o :
  current_parked c s -> c' <> c ->
  current_parked c (exec (Settle c' o) s) /\
  cells (exec (Settle c' o) s) = cells s.
Proof.
  intros [Hcl Hoth Hl He] Hne.
  destruct (exec_settle_discarded s c' o) as [-> | [Hlt ->]].
  - intros cl H _. by eapply Hoth.
  - done.
  - split; [|done]. split; simpl; [| |done|done].
    + by rewrite list_lookup_insert_ne.
    + intros k cl Hk H. destruct (decide (c' = k)) as [<-|Hd].
      * rewrite list_lookup_insert_eq in H by done. by injection H as <-.
      * rewrite list_lookup_insert_ne in H by done. by eapply Hoth.
Qed.

(** While the current [load] is parked, the settlements of the other
    promises change no cell and leave it parked. *)
Lemma current_parked_run s c evs :
  current_parked c s -> settlements_except c evs ->
  current_parked c (run evs s) /\ cells (run evs s) = cells s.
Proof.
  revert s. induction evs as [|ev evs IH]; intros s Hcp Hevs; simpl; [done|].
  inversion Hevs as [|? ? Hev Hrest]; subst.
  destruct ev as [|c' o|]; [done| |done].
  destruct (current_parked_settle s c c' o Hcp Hev) as [Hcp' Hcells].
  destruct (IH _ Hcp' Hrest) as [Hcp'' Hcells'].
  split; [done|]. by rewrite Hcells'.
Qed.

Lemma run_settlements_length s evs :
  settlements_only evs ->
  length (closures (run evs s)) = length (closures s).
Proof.
  revert s. induction evs as [|ev evs IH]; intros s Hevs; simpl; [done|].
  inversion Hevs as [|? ? Hev Hrest]; subst.
  destruct ev as [|c o|]; [done| |done].
  rewrite IH by done. apply exec_settle_length.
Qed.

Lemma settlements_except_only c (evs : list (Event T)) :
  settlements_except c evs -> settlements_only evs.
Proof.
  unfold settlements_except, settlements_only.
  intros H. eapply Forall_impl; [exact H|]. by intros [| |].
Qed.

(** A start that gets a promise parks a fresh live closure; all older
    closures are cancelled by then. *)
Lemma start_current_parked s :
  consistent s ->
  current_parked (length (closures s)) (exec (Start ReturnsPromise) s).
Proof.
  intros I. rewrite exec_start_promise. split; simpl; [| |done|done].
  - rewrite <- (run_cleanup_length s). apply lookup_snoc_last.
  - intros c' cl Hne H.
    apply started_lookup in H as [[_ ?] | [? _]]; done.
Qed.

(** The settlement of the current parked [load] commits its outcome, and
    leaves the component quiet. *)
Lemma current_parked_commit s c o :
  current_parked c s ->
  cells (exec (Settle c o) s) =
    match o with
    | Fulfilled data => (data, false, None)
    | Rejected reason => (users s, false, Some (error_text reason))
    end /\
  quiet (exec (Settle c o) s).
Proof.
  intros [Hcl Hoth Hl He].
  assert (Hlt : c < length (closures s)) by (eapply lookup_lt_Some; eauto).
  assert (Hq : forall k cl,
            <[c := mkClosure false false]> (closures s) !! k = Some cl ->
            suspended cl = true -> cancelled cl = true).
  { intros k cl H Hs. destruct (decide (c = k)) as [<-|Hd].
    - rewrite list_lookup_insert_eq in H by done. injection H as <-. done.
    - rewrite list_lookup_insert_ne in H by done. eapply Hoth; eauto. }
  destruct o as [data|reason].
  - erewrite exec_settle_fulfilled by eauto.
    unfold cells, quiet; simpl. by rewrite He.
  - erewrite exec_settle_rejected by eauto. done.
Qed.

(** After the unmount every closure is cancelled. *)
Lemma dispose_quiet s : consistent s -> quiet (exec Dispose s).
Proof.
  intros I c cl H _. rewrite exec_dispose in H. simpl in H.
  by eapply run_cleanup_all_cancelled.
Qed.

End Settlements.

(** ** Runs *)

Section Runs.
Context {T : Type}.
Implicit Types (s : UserList T) (c : nat) (o : Settlement T).

Lemma run_app (evs1 evs2 : list (Event T)) s :
  run (evs1 ++ evs2) s = run evs2 (run evs1 s).
Proof. apply fold_left_app. Qed.

Lemma run_snoc (evs : list (Event T)) ev s :
  run (evs ++ [ev]) s = exec ev (run evs s).
Proof. by rewrite run_app. Qed.

(** The render branch is a function of the three cells. *)
Lemma observe_cells s s' : cells s = cells s' -> observe s = observe s'.
Proof. unfold cells, observe. by intros [= -> -> ->]. Qed.

Lemma start_promise_cells s :
  cells (exec (Start ReturnsPromise) s) = (users s, true, None).
Proof. by rewrite exec_start_promise. Qed.

Lemma start_promise_length s :
  length (closures (exec (Start ReturnsPromise) s)) = S (length (closures s)).
Proof.
  rewrite exec_start_promise. simpl.
  rewrite length_app, run_cleanup_length. simpl. lia.
Qed.

(** A start, then settlements of older promises only: the fresh [load] is
    still parked and no cell has moved since the start. *)
Lemma started_then_stale s (evs : list (Event T)) :
  reachable s -> settlements_except (length (closures s)) evs ->
  let s' := run (Start ReturnsPromise :: evs) s in
  current_parked (length (closures s)) s' /\
  cells s' = (users s, true, None) /\
  length (closures s') = S (length (closures s)) /\
  reachable s'.
Proof.
  intros R Hevs s'. subst s'. simpl.
  pose proof (start_current_parked s (reachable_consistent s R)) as Hcp.
  destruct (current_parked_run _ _ evs Hcp Hevs) as [Hcp' Hcells].
  split; [done|]. split; [by rewrite Hcells, start_promise_cells|].
  split.
  - rewrite run_settlements_length by (by eapply settlements_except_only).
    apply start_promise_length.
  - apply reachable_run. by constructor.
Qed.

(** Each step keeps the [users] cell or is the fulfilment that wrote it. *)
Lemma exec_users ev s :
  users (exec ev s) = users s \/
  exists c, ev = Settle c (Fulfilled (users (exec ev s))).
Proof.
  destruct ev as [[err|]|c o|].
  - left. by rewrite exec_start_throw.
  - left. by rewrite exec_start_promise.
  - destruct (closures s !! c) as [cl|] eqn:H.
    2: { left. by rewrite exec_settle_absent. }
    destruct (suspended cl) eqn:Hs.
    2: { left. by erewrite exec_settle_not_parked. }
    destruct (cancelled cl) eqn:Hc.
    { left. by erewrite exec_settle_cancelled. }
    destruct o as [data|reason].
    + right. exists c. by erewrite exec_settle_fulfilled.
    + left. by erewrite exec_settle_rejected.
  - left. rewrite exec_dispose. simpl.
    pose proof (run_cleanup_cells s) as Hc. unfold cells in Hc. congruence.
Qed.

End Runs.

(** * The properties of the loader *)



(** C2. No commit after dispose.  From the unmount on, whatever promises
    settle and however they settle, the three cells stay what they were when
    the component was disposed. *)
Theorem dispose_discards_settlements {T : Type} (s : UserList T)
    (evs : list (Event T)) :
  reachable s ->
  settlements_only evs ->
  cells (run (Dispose :: evs) s) = cells s /\
  observe (run (Dispose :: evs) s) = observe s.
Proof.
  intros R Hevs.
  assert (Hc : cells (run (Dispose :: evs) s) = cells s).
  { simpl. rewrite quiet_run; [|by apply dispose_quiet, reachable_consistent|done].
    rewrite exec_dispose. apply run_cleanup_cells. }
  split; [done | by apply observe_cells].
Qed.

(** Scenario D: [fetchPending] resolves with ["z"] after the dispose, and
    the component still shows the spinner over an empty list. *)
Lemma dispose_discards_settlements_scenario :
  pending 0 (exec (Start ReturnsPromise) (@initial string)) /\
  cells (run [Start ReturnsPromise; Dispose; Settle 0 (Fulfilled ["z"])]
             initial) = ([], true, None).
Proof.
  split.
  - exists (mkClosure false true). split; reflexivity.
  - assert (R : reachable (exec (Start ReturnsPromise) (@initial string)))
      by apply reachable_exec, reachable_initial.
    assert (H1 : settlements_only [Settle 0 (@Fulfilled string ["z"])])
      by repeat constructor.
    pose proof (dispose_discards_settlements _ _ R H1) as [H _].
    revert H. cbv. exact (fun Hnf => Hnf).
Defined.

(** C8. One fetch that fulfils.  A start in any reachable state, then no
    further start and no dispose, only settlements of older promises, and
    then the fulfilment with [l]: the component shows the list [l]. *)
Theorem single_fetch_success {T : Type} (s : UserList T)
    (evs : list (Event T)) (l : list T) :
  reachable s ->
  settlements_except (length (closures s)) evs ->
  observe (run (Start ReturnsPromise :: evs ++
                [Settle (length (closures s)) (Fulfilled l)]) s) = Success l.
Proof.
  intros R Hevs.
  destruct (started_then_stale s evs R Hevs) as (Hcp & _ & _ & _).
  rewrite app_comm_cons, run_snoc.
  destruct (current_parked_commit _ _ (Fulfilled l) Hcp) as [Hcommit _].
  by rewrite (observe_cells _ (@mkUserList T l false None [] None)).
Qed.

(** Scenario A: on mount, [fetchUsers] resolves with ["a"; "b"]. *)
Lemma single_fetch_success_scenario :
  observe (run [Start ReturnsPromise; Settle 0 (Fulfilled ["a"; "b"])]
               initial) = Success ["a"; "b"].
Proof.
  assert (R : reachable (@initial string)) by apply reachable_initial.
  assert (H1 : settlements_except 0 (@nil (Event string))) by constructor.
  pose proof (single_fetch_success _ _ ["a"; "b"] R H1) as H.
  revert H. cbv. exact (fun Hnf => Hnf).
Defined.

(** C9. Perpetual loading.  After a start whose promise does not settle,
    with no further start and no dispose, the component shows the spinner at
    every later point, whatever older promises settle meanwhile. *)
Theorem unsettled_stays_loading {T : Type} (s : UserList T)
    (evs : list (Event T)) :
  reachable s ->
  settlements_except (length (closures s)) evs ->
  observe (run (Start ReturnsPromise :: evs) s) = Loading /\
  pending (length (closures s)) (run (Start ReturnsPromise :: evs) s).
Proof.
  intros R Hevs.
  destruct (started_then_stale s evs R Hevs) as (Hcp & Hcells & _ & _).
  split.
  - by rewrite (observe_cells _ (@mkUserList T (users s) true None [] None)).
  - exists (mkClosure false true). split; [apply (cp_closure _ _ Hcp) | done].
Qed.

(** The never-resolving fetch of the test-suite, on mount. *)
Lemma unsettled_stays_loading_scenario :
  observe (run [Start ReturnsPromise] (@initial User)) = Loading.
Proof.
  assert (R : reachable (@initial User)) by apply reachable_initial.
  assert (H1 : settlements_except 0 (@nil (Event User))) by constructor.
  pose proof (unsettled_stays_loading _ _ R H1) as [H _].
  revert H. cbv. exact (fun Hnf => Hnf).
Defined.

(** C10. The fallback text.  A rejection reason that is not an instance of
    [Error], when it reaches the live [load], is committed as the fixed
    string "Something went wrong"; likewise when [fetchUsers()] throws such
    a value. *)
Theorem non_error_rejection_fallback {T : Type} (s : UserList T)
    (evs : list (Event T)) (reason : JsValue) :
  instanceof_Error reason = false ->
  reachable s ->
  settlements_except (length (closures s)) evs ->
  let s' := run (Start ReturnsPromise :: evs ++
                 [Settle (length (closures s)) (Rejected reason)]) s in
  error s' = Some "Something went wrong" /\
  observe s' = Failure "Something went wrong" /\
  observe (exec (Start (ThrowsSync reason)) s) = Failure "Something went wrong".
Proof.
  intros Hne R Hevs s'.
  assert (Ht : error_text reason = "Something went wrong")
    by (by destruct reason).
  destruct (started_then_stale s evs R Hevs) as (Hcp & _ & _ & _).
  destruct (current_parked_commit _ _ (Rejected reason) Hcp) as [Hcommit _].
  assert (Hc : cells s' = (users s, false, Some "Something went wrong")).
  { subst s'. rewrite app_comm_cons, run_snoc, Hcommit, Ht.
    destruct (started_then_stale s evs R Hevs) as (_ & Hcells & _).
    unfold cells in Hcells. simpl in Hcells |- *. congruence. }
  split; [|split].
  - unfold cells in Hc. by injection Hc as _ _ ->.
  - by rewrite (observe_cells _ (@mkUserList T (users s) false
                                   (Some "Something went wrong") [] None)).
  - rewrite exec_start_throw. unfold observe. simpl. by rewrite Ht.
Qed.

(** A string, a number and a plain object with a [message] field. *)
Lemma non_error_rejection_fallback_scenario :
  error (run [Start ReturnsPromise;
              Settle 0 (Rejected (JsObject [("message", JsString "boom")]))]
             (@initial User)) = Some "Something went wrong" /\
  error (run [Start ReturnsPromise; Settle 0 (Rejected (JsString "boom"))]
             (@initial User)) = Some "Something went wrong" /\
  error (run [Start ReturnsPromise; Settle 0 (Rejected (JsNumber 404))]
             (@initial User)) = Some "Something went wrong".
Proof.
  assert (R : reachable (@initial User)) by apply reachable_initial.
  assert (H1 : settlements_except 0 (@nil (Event User))) by constructor.
  split; [|split].
  - assert (Hne : instanceof_Error (JsObject [("message", JsString "boom")])
                  = false) by reflexivity.
    pose proof (non_error_rejection_fallback _ _ _ Hne R H1) as [H _].
    revert H. cbv. exact (fun Hnf => Hnf).
  - assert (Hne : instanceof_Error (JsString "boom") = false) by reflexivity.
    pose proof (non_error_rejection_fallback _ _ _ Hne R H1) as [H _].
    revert H. cbv. exact (fun Hnf => Hnf).
  - assert (Hne : instanceof_Error (JsNumber 404) = false) by reflexivity.
    pose proof (non_error_rejection_fallback _ _ _ Hne R H1) as [H _].
    revert H. cbv. exact (fun Hnf => Hnf).
Defined.

(** ** Error normalization *)

Lemma truthy_nonempty (m : string) : m <> "" -> truthy (Some m) = true.
Proof. by destruct m. Qed.

Lemma error_text_nonempty (reason : JsValue) :
  reason <> JsError "" -> error_text reason <> "".
Proof. destruct reason; simpl; try done. intros H ->. done. Qed.

(** The cells after a start and the rejection of its promise, with only
    settlements of older promises in between. *)
Lemma rejected_cells {T : Type} (s : UserList T) (evs : list (Event T))
    (reason : JsValue) :
  reachable s ->
  settlements_except (length (closures s)) evs ->
  cells (run (Start ReturnsPromise :: evs ++
              [Settle (length (closures s)) (Rejected reason)]) s) =
  (users s, false, Some (error_text reason)).
Proof.
  intros R Hevs.
  destruct (started_then_stale s evs R Hevs) as (Hcp & Hcells & _ & _).
  destruct (current_parked_commit _ _ (Rejected reason) Hcp) as [Hcommit _].
  rewrite app_comm_cons, run_snoc, Hcommit.
  unfold cells in Hcells. simpl in Hcells |- *. congruence.
Qed.

(** C4, as stated, fails: a plain object with a [message] field is not an
    instance of [Error], and its message is replaced by the fallback. *)
Lemma plain_object_message_replaced :
  message_field (JsObject [("message", JsString "boom")])
    = Some (JsString "boom") /\
  error (run [Start ReturnsPromise;
              Settle 0 (Rejected (JsObject [("message", JsString "boom")]))]
             (@initial User)) = Some "Something went wrong" /\
  error (run [Start ReturnsPromise;
              Settle 0 (Rejected (JsObject [("message", JsString "boom")]))]
             (@initial User)) <> Some "boom" /\
  observe (run [Start ReturnsPromise;
                Settle 0 (Rejected (JsObject [("message", JsString "boom")]))]
               (@initial User)) = Failure "Something went wrong".
Proof.
  split; [|split; [|split]];
    [reflexivity | reflexivity | discriminate | reflexivity].
Qed.

(** C4, amended.  A rejection reason that is an instance of [Error], when
    it reaches the live [load], is committed with its message verbatim; a
    non-empty message is then what the component shows as its failure. *)
Theorem error_message_verbatim {T : Type} (s : UserList T)
    (evs : list (Event T)) (m : string) :
  reachable s ->
  settlements_except (length (closures s)) evs ->
  let s' := run (Start ReturnsPromise :: evs ++
                 [Settle (length (closures s)) (Rejected (JsError m))]) s in
  error s' = Some m /\
  loading s' = false /\
  (m <> "" -> observe s' = Failure m).
Proof.
  intros R Hevs s'.
  pose proof (rejected_cells s evs (JsError m) R Hevs) as Hc.
  fold s' in Hc. unfold cells in Hc. simpl in Hc.
  injection Hc as Hu Hl He.
  split; [done|]. split; [done|].
  intros Hm. unfold observe. rewrite Hl, He, truthy_nonempty by done. done.
Qed.

(** Scenario B: the promise rejects with [new Error("boom")]. *)
Lemma error_message_verbatim_scenario :
  observe (run [Start ReturnsPromise; Settle 0 (Rejected (JsError "boom"))]
               (@initial User)) = Failure "boom".
Proof.
  assert (R : reachable (@initial User)) by apply reachable_initial.
  assert (H1 : settlements_except 0 (@nil (Event User))) by constructor.
  pose proof (error_message_verbatim _ _ "boom" R H1) as (_ & _ & H).
  assert (Hm : "boom" <> "") by discriminate.
  specialize (H Hm). revert H. cbv. exact (fun Hnf => Hnf).
Defined.

(** C5.  The code at the input where it breaks the claim: a rejection with
    [new Error("")] commits the empty string as the message, which
    [if (error)] takes for no error, so that after a failed fetch the
    component shows its (empty) list and no error message. *)
Lemma empty_error_message_committed :
  error (run [Start ReturnsPromise; Settle 0 (Rejected (JsError ""))]
             (@initial User)) = Some "" /\
  loading (run [Start ReturnsPromise; Settle 0 (Rejected (JsError ""))]
               (@initial User)) = false /\
  observe (run [Start ReturnsPromise; Settle 0 (Rejected (JsError ""))]
               (@initial User)) = Success [].
Proof. split; [|split]; reflexivity. Qed.

(** Where the message is non-empty: every rejection reason other than an
    [Error] with an empty message is committed as a non-empty string, which
    the component shows as its failure. *)
Theorem committed_message_nonempty {T : Type} (s : UserList T)
    (evs : list (Event T)) (reason : JsValue) :
  reason <> JsError "" ->
  reachable s ->
  settlements_except (length (closures s)) evs ->
  let s' := run (Start ReturnsPromise :: evs ++
                 [Settle (length (closures s)) (Rejected reason)]) s in
  exists m, error s' = Some m /\ m <> "" /\ observe s' = Failure m.
Proof.
  intros Hne R Hevs s'.
  pose proof (rejected_cells s evs reason R Hevs) as Hc.
  fold s' in Hc. unfold cells in Hc. simpl in Hc.
  injection Hc as Hu Hl He.
  pose proof (error_text_nonempty reason Hne) as Hm.
  exists (error_text reason). split; [done|]. split; [done|].
  unfold observe. rewrite Hl, He, truthy_nonempty by done. done.
Qed.

(** A rejection with [undefined] (no value at all) gets a non-empty text. *)
Lemma committed_message_nonempty_scenario :
  exists m,
    error (run [Start ReturnsPromise; Settle 0 (Rejected JsUndefined)]
               (@initial User)) = Some m /\ m <> "".
Proof.
  assert (R : reachable (@initial User)) by apply reachable_initial.
  assert (H1 : settlements_except 0 (@nil (Event User))) by constructor.
  assert (Hne : JsUndefined <> JsError "") by discriminate.
  destruct (committed_message_nonempty _ _ _ Hne R H1) as (m & He & Hm & _).
  exists m. split; [|exact Hm]. revert He. cbv. exact (fun Hnf => Hnf).
Defined.

(** ** Completions of the steps *)

(** The loader never throws.  Whatever [fetchUsers()] throws and whatever
    its promise rejects with, in any state of the component, a segment of
    [load] completes normally or parks at the [await], never by a throw; a
    synchronous throw is caught into the error cell at once, and so is the
    rejection that resumes the live [load]; and whenever the text caught is
    not empty, the component shows the failure with that text. *)
Theorem load_never_throws {T : Type} (s : UserList T) :
  (forall ev : Event T,
     (step ev s).1 = match ev with
                     | Start ReturnsPromise => Suspended
                     | _ => Normal ()
                     end) /\
  (forall err,
     cells (exec (Start (ThrowsSync err)) s) =
       (users s, false, Some (error_text err)) /\
     (error_text err <> "" ->
      observe (exec (Start (ThrowsSync err)) s) = Failure (error_text err))) /\
  (forall c reason,
     current_parked c s ->
     cells (exec (Settle c (Rejected reason)) s) =
       (users s, false, Some (error_text reason)) /\
     (error_text reason <> "" ->
      observe (exec (Settle c (Rejected reason)) s)
      = Failure (error_text reason))).
Proof.
  assert (Hshown : forall (s' : UserList T) text,
            cells s' = (users s, false, Some text) -> text <> "" ->
            observe s' = Failure text).
  { intros s' text Hc Hne. unfold cells in Hc. injection Hc as _ Hl He.
    unfold observe. by rewrite Hl, He, truthy_nonempty. }
  split; [|split].
  - intros [[err|]|c o|]; simpl; [| |  |done].
    + unfold effect, load, try_catch_finally, bind, load_catch, load_finally,
        read_cancelled, bind; simpl.
      repeat (rewrite lookup_snoc_last; simpl). done.
    + unfold effect, load, try_catch_finally, bind, await; simpl. done.
    + destruct (closures s !! c) as [cl|] eqn:H; [|done].
      destruct (suspended cl); [|done].
      unfold load_resume, try_catch_finally, bind, settled, load_catch,
        load_finally, read_cancelled, bind.
      destruct o as [data|reason]; simpl.
      * destruct (closures (set_suspended c false s) !! c) as [cl'|]; simpl;
          [destruct (cancelled cl')|]; simpl;
          repeat (case_match; simpl in *; simplify_eq); done.
      * destruct (closures (set_suspended c false s) !! c) as [cl'|]; simpl;
          [destruct (cancelled cl')|]; simpl;
          repeat (case_match; simpl in *; simplify_eq); done.
  - intros err.
    assert (Hc : cells (exec (Start (ThrowsSync err)) s) =
                 (users s, false, Some (error_text err)))
      by (by rewrite exec_start_throw).
    split; [done | by apply Hshown].
  - intros c reason Hcp.
    destruct (current_parked_commit _ _ (Rejected reason) Hcp) as [Hc _].
    split; [done | by apply Hshown].
Qed.

(** A synchronous throw on mount, and a rejection of the mounted fetch. *)
Lemma load_never_throws_scenario :
  (step (Start (ThrowsSync (JsString "oops"))) (@initial User)).1 = Normal () /\
  observe (run [Start ReturnsPromise; Settle 0 (Rejected (JsError "boom"))]
               (@initial User)) = Failure "boom".
Proof.
  split.
  - destruct (load_never_throws (@initial User)) as (H & _ & _).
    exact (H (Start (ThrowsSync (JsString "oops")))).
  - destruct (load_never_throws (exec (Start ReturnsPromise) (@initial User)))
      as (_ & _ & H).
    assert (Hcp : current_parked 0 (exec (Start ReturnsPromise) (@initial User))).
    { split; [reflexivity | | reflexivity | reflexivity].
      intros [|[|k]] cl Hne Hl; [done | discriminate Hl | discriminate Hl]. }
    destruct (H 0 (JsError "boom") Hcp) as [_ Hobs].
    assert (Hne : error_text (JsError "boom") <> "") by discriminate.
    specialize (Hobs Hne). revert Hobs. cbv. exact (fun Hnf => Hnf).
Defined.

(** C7.  The code at the input where it breaks the claim.  When
    [fetchUsers()] throws [new Error("")], or its promise rejects with it,
    the failure is caught and nothing is thrown on, but it is not turned
    into a failure state: the empty message is taken for no error and the
    component shows its list.  This is the defect C5 meets. *)
Lemma empty_error_shown_as_list :
  (step (Start (ThrowsSync (JsError ""))) (@initial User)).1 = Normal () /\
  observe (exec (Start (ThrowsSync (JsError ""))) (@initial User))
    = Success [] /\
  (step (Settle 0 (Rejected (JsError "")))
        (exec (Start ReturnsPromise) (@initial User))).1 = Normal () /\
  observe (run [Start ReturnsPromise; Settle 0 (Rejected (JsError ""))]
               (@initial User)) = Success [] /\
  (forall m,
     observe (run [Start ReturnsPromise; Settle 0 (Rejected (JsError ""))]
                  (@initial User)) <> Failure m).
Proof.
  split; [reflexivity|]. split; [reflexivity|]. split; [reflexivity|].
  split; [reflexivity|]. intros m. discriminate.
Qed.

(** ** State exclusivity and transitions *)

(** C3, as stated, fails: the [users] cell is not cleared when the effect
    runs again, so after one successful fetch the list stays populated under
    the spinner of the next fetch, and next to the error when that fetch
    fails. *)
Lemma stale_data_outside_success :
  reachable (run [Start ReturnsPromise; Settle 0 (Fulfilled ["a"]);
                  Start ReturnsPromise] initial) /\
  observe (run [Start ReturnsPromise; Settle 0 (Fulfilled ["a"]);
                Start ReturnsPromise] initial) = Loading /\
  users (run [Start ReturnsPromise; Settle 0 (Fulfilled ["a"]);
              Start ReturnsPromise] initial) = ["a"] /\
  observe (run [Start ReturnsPromise; Settle 0 (Fulfilled ["a"]);
                Start ReturnsPromise; Settle 1 (Rejected (JsError "boom"))]
               initial) = Failure "boom" /\
  users (run [Start ReturnsPromise; Settle 0 (Fulfilled ["a"]);
              Start ReturnsPromise; Settle 1 (Rejected (JsError "boom"))]
             initial) = ["a"].
Proof.
  split; [apply reachable_run, reachable_initial|].
  repeat split.
Qed.

(** C3, amended.  In every state reached from the creation of the
    component: under the spinner the error cell is null; the component shows
    a failure exactly when the error cell holds a non-empty message; and the
    [users] cell is non-empty only if a fulfilment with exactly that list has
    settled earlier (the list is kept from then on, whatever is shown). *)
Theorem error_exclusive_data_kept {T : Type} (evs : list (Event T)) :
  let s := run evs initial in
  (observe s = Loading -> error s = None) /\
  (forall m, observe s = Failure m <-> error s = Some m /\ m <> "") /\
  (users s <> [] -> exists c, In (Settle c (Fulfilled (users s))) evs).
Proof.
  intros s.
  assert (I : consistent s)
    by apply reachable_consistent, reachable_run, reachable_initial.
  split; [|split].
  - unfold observe. destruct (loading s) eqn:Hl.
    + intros _. by apply (loading_no_error s I).
    + by destruct (truthy (error s)).
  - intros m. unfold observe. destruct (loading s) eqn:Hl.
    + rewrite (loading_no_error s I Hl). split; [done | by intros [? _]].
    + destruct (error s) as [[|a e]|] eqn:He; simpl.
      * split; [done | by intros ([= <-] & ?)].
      * split; [by intros [= <-] | by intros ([= <-] & _)].
      * split; [done | by intros (? & _)].
  - clear I. subst s. induction evs as [|ev evs IH] using rev_ind; [done|].
    rewrite run_snoc. intros Hu.
    destruct (exec_users ev (run evs initial)) as [E | [c E]].
    + rewrite E in Hu |- *. destruct (IH Hu) as [c Hin].
      exists c. apply in_or_app. by left.
    + exists c. apply in_or_app. right. left. done.
Qed.

(** After a failed refetch the list of the earlier fetch is still there,
    and it is the list that fetch was fulfilled with. *)
Lemma error_exclusive_data_kept_scenario :
  exists c,
    In (Settle c (Fulfilled ["a"]))
       [Start ReturnsPromise; Settle 0 (Fulfilled ["a"]);
        Start ReturnsPromise; Settle 1 (Rejected (JsError "boom"))].
Proof.
  destruct (error_exclusive_data_kept
              [Start ReturnsPromise; Settle 0 (Fulfilled ["a"]);
               Start ReturnsPromise; Settle 1 (Rejected (JsError "boom"))])
    as (_ & _ & H).
  assert (Hu : users (run [Start ReturnsPromise; Settle 0 (Fulfilled ["a"]);
                           Start ReturnsPromise;
                           Settle 1 (Rejected (JsError "boom"))] initial)
               <> []) by (cbv; discriminate).
  destruct (H Hu) as [c Hin]. exists c. revert Hin. cbv. exact (fun Hnf => Hnf).
Defined.

(** C6, as stated, fails: when the effect runs again after a fetch has
    completed, the component goes from its list back to the spinner. *)
Lemma success_to_loading :
  reachable (run [Start ReturnsPromise; Settle 0 (Fulfilled ["a"])] initial) /\
  observe (run [Start ReturnsPromise; Settle 0 (Fulfilled ["a"])] initial)
    = Success ["a"] /\
  observe (exec (Start ReturnsPromise)
             (run [Start ReturnsPromise; Settle 0 (Fulfilled ["a"])] initial))
    = Loading.
Proof.
  split; [apply reachable_run, reachable_initial|].
  split; reflexivity.
Qed.

(** C6, amended.  In a reachable state, a settlement changes nothing of
    what is shown or it leaves the spinner for a list or a failure; the
    unmount changes nothing; a start whose [fetchUsers()] returns a promise
    leads to the spinner from whatever is shown; and a start whose
    [fetchUsers()] throws ends, within the start, on a list or a failure. *)
Theorem transitions {T : Type} (s : UserList T) :
  reachable s ->
  (forall c o,
     observe (exec (Settle c o) s) = observe s \/
     (observe s = Loading /\ observe (exec (Settle c o) s) <> Loading)) /\
  observe (exec Dispose s) = observe s /\
  observe (exec (Start ReturnsPromise) s) = Loading /\
  (forall err, observe (exec (Start (ThrowsSync err)) s) <> Loading).
Proof.
  intros R. pose proof (reachable_consistent s R) as I.
  split; [|split; [|split]].
  - intros c o.
    destruct (closures s !! c) as [cl|] eqn:H.
    2: { left. by rewrite exec_settle_absent. }
    destruct (suspended cl) eqn:Hs.
    2: { left. by erewrite exec_settle_not_parked. }
    destruct (cancelled cl) eqn:Hc.
    { left. by erewrite exec_settle_cancelled. }
    right.
    pose proof (parked_loading s I c cl H Hc Hs) as Hl.
    split; [unfold observe; by rewrite Hl|].
    destruct o as [data|reason].
    + erewrite exec_settle_fulfilled by eauto.
      unfold observe; simpl. by destruct (truthy (error s)).
    + erewrite exec_settle_rejected by eauto.
      unfold observe; simpl. by repeat case_match.
  - apply observe_cells. rewrite exec_dispose. apply run_cleanup_cells.
  - by rewrite exec_start_promise.
  - intros err. rewrite exec_start_throw.
    unfold observe; simpl. by repeat case_match.
Qed.

(** From the list of a completed fetch: a late settlement and the unmount
    change nothing, a new start shows the spinner. *)
Lemma transitions_scenario :
  observe (exec (Settle 0 (Rejected JsNull))
             (run [Start ReturnsPromise; Settle 0 (Fulfilled ["a"])] initial))
    = Success ["a"] /\
  observe (exec Dispose
             (run [Start ReturnsPromise; Settle 0 (Fulfilled ["a"])] initial))
    = Success ["a"] /\
  observe (exec (Start ReturnsPromise)
             (run [Start ReturnsPromise; Settle 0 (Fulfilled ["a"])] initial))
    = Loading.
Proof.
  assert (R : reachable (run [Start ReturnsPromise;
                              Settle 0 (@Fulfilled string ["a"])] initial))
    by (apply reachable_run, reachable_initial).
  destruct (transitions _ R) as (H1 & H2 & H3 & _).
  split; [|split].
  - destruct (H1 0 (Rejected JsNull)) as [H | [H _]].
    + revert H. cbv. exact (fun Hnf => Hnf).
    + revert H. cbv. discriminate.
  - revert H2. cbv. exact (fun Hnf => Hnf).
  - revert H3. cbv. exact (fun Hnf => Hnf).
Defined.

(** * TodoList *)

Section TodoListFacts.
Import TodoList.
Implicit Types (s : State) (t : Todo) (u : code_units) (c : N).

(** ** [trim] *)

Lemma last_rev_head {A : Type} (l : list A) : last (rev l) = head l.
Proof. destruct l as [|x l]; simpl; [done | apply last_snoc]. Qed.

Lemma head_rev_last {A : Type} (l : list A) : head (rev l) = last l.
Proof. by rewrite <- (last_rev_head (rev l)), rev_involutive. Qed.

Lemma trimStart_split u :
  exists pre, u = pre ++ trimStart u /\
              Forall (fun c => is_white_space c = true) pre.
Proof.
  induction u as [|c u (pre & E & Hpre)]; simpl.
  - by exists [].
  - destruct (is_white_space c) eqn:Hc.
    + exists (c :: pre). split; [by rewrite E at 1 | by constructor].
    + by exists [].
Qed.

Lemma trimStart_head u c :
  head (trimStart u) = Some c -> is_white_space c = false.
Proof.
  induction u as [|c' u IH]; simpl; [done|].
  destruct (is_white_space c') eqn:Hc; [done|]. simpl. by intros [= <-].
Qed.

Lemma trimStart_nil u :
  trimStart u = [] <-> Forall (fun c => is_white_space c = true) u.
Proof.
  induction u as [|c u IH]; simpl; [done|].
  destruct (is_white_space c) eqn:Hc.
  - rewrite IH. split; [by constructor | by inversion 1].
  - split; [done|]. inversion 1; congruence.
Qed.

Lemma trimStart_fixed u c :
  head u = Some c -> is_white_space c = false -> trimStart u = u.
Proof. destruct u as [|c' u]; simpl; [done|]. by intros [= ->] ->. Qed.

Lemma trimEnd_split u :
  exists post, u = trimEnd u ++ post /\
               Forall (fun c => is_white_space c = true) post.
Proof.
  unfold trimEnd. destruct (trimStart_split (rev u)) as (pre & E & Hpre).
  exists (rev pre). split.
  - rewrite <- rev_app_distr, <- E. by rewrite rev_involutive.
  - by apply Forall_rev.
Qed.

Lemma trimEnd_last u c :
  last (trimEnd u) = Some c -> is_white_space c = false.
Proof.
  unfold trimEnd. rewrite last_rev_head. apply trimStart_head.
Qed.

Lemma trimEnd_nil u :
  trimEnd u = [] <-> Forall (fun c => is_white_space c = true) u.
Proof.
  unfold trimEnd. split.
  - intros H. apply (f_equal (@rev N)) in H. rewrite rev_involutive in H.
    simpl in H. apply trimStart_nil in H.
    apply Forall_rev in H. by rewrite rev_involutive in H.
  - intros H. apply Forall_rev in H. apply trimStart_nil in H. by rewrite H.
Qed.

Lemma trimEnd_fixed u c :
  last u = Some c -> is_white_space c = false -> trimEnd u = u.
Proof.
  intros Hl Hc. unfold trimEnd.
  rewrite (trimStart_fixed (rev u) c); [apply rev_involutive | | done].
  by rewrite head_rev_last.
Qed.

(** [trim] gives up on nothing but white space: it is empty exactly on
    blank strings. *)
Lemma trim_nil u :
  trim u = [] <-> Forall (fun c => is_white_space c = true) u.
Proof.
  unfold trim. rewrite trimEnd_nil.
  destruct (trimStart_split u) as (pre & E & Hpre).
  split.
  - intros H. rewrite E. apply Forall_app. done.
  - intros H. apply trimStart_nil in H. rewrite H. constructor.
Qed.

(** The shape of [trim u]: [u] with a blank prefix and a blank suffix cut
    off, and with no white space left at either end. *)
Lemma trim_spec u :
  exists pre post,
    u = pre ++ trim u ++ post /\
    Forall (fun c => is_white_space c = true) pre /\
    Forall (fun c => is_white_space c = true) post /\
    (forall c, head (trim u) = Some c -> is_white_space c = false) /\
    (forall c, last (trim u) = Some c -> is_white_space c = false).
Proof.
  destruct (trimStart_split u) as (pre & E & Hpre).
  destruct (trimEnd_split (trimStart u)) as (post & E' & Hpost).
  exists pre, post. fold (trim u) in E'.
  split; [by rewrite <- E'|]. split; [done|]. split; [done|].
  split; [|apply trimEnd_last].
  intros c Hc. apply (trimStart_head u).
  rewrite E'. destruct (trim u); [done|]. done.
Qed.

Lemma trim_fixed u c c' :
  head u = Some c -> is_white_space c = false ->
  last u = Some c' -> is_white_space c' = false ->
  trim u = u.
Proof.
  intros Hh Hc Hl Hc'. unfold trim.
  rewrite (trimStart_fixed u c) by done. by eapply trimEnd_fixed.
Qed.

End TodoListFacts.

Section TodoListProperties.
Import TodoList.
Implicit Types (s : State) (t : Todo) (u : code_units) (c : N) (i now : Z).

(** X1. An input of white space only (the empty input included) adds
    nothing: [addTodo] leaves todos, input and filter as they are. *)
Theorem todo_add_blank now s :
  Forall (fun c => is_white_space c = true) (input s) ->
  addTodo now s = s.
Proof.
  intros H. unfold addTodo. apply trim_nil in H. by rewrite H.
Qed.

Lemma todo_add_blank_witness :
  addTodo 1700000000000 (mkState [] [32; 9; 160; 10]%N Active)
  = mkState [] [32; 9; 160; 10]%N Active.
Proof.
  apply (todo_add_blank 1700000000000 (mkState [] [32; 9; 160; 10]%N Active)).
  repeat constructor.
Defined.

(** X2. An input with at least one character that is not white space is
    added as the last todo, not completed, with [Date.now()] as its id; its
    text is the input without its blank prefix and blank suffix, and so
    begins and ends with a character that is not white space; the input box
    is cleared and the todos before it are kept. *)
Theorem todo_add_nonblank now s :
  Exists (fun c => is_white_space c = false) (input s) ->
  exists txt pre post,
    input s = pre ++ txt ++ post /\
    Forall (fun c => is_white_space c = true) pre /\
    Forall (fun c => is_white_space c = true) post /\
    (exists c, head txt = Some c /\ is_white_space c = false) /\
    (exists c, last txt = Some c /\ is_white_space c = false) /\
    addTodo now s =
      {| todos := todos s ++ [mkTodo now txt false];
         input := [];
         filter := filter s |}.
Proof.
  intros Hex.
  assert (Hne : trim (input s) <> []).
  { intros H. apply trim_nil in H. apply Exists_exists in Hex as (c & Hin & Hc).
    rewrite Forall_forall in H. specialize (H c Hin). congruence. }
  destruct (trim_spec (input s)) as (pre & post & E & Hpre & Hpost & Hh & Hl).
  exists (trim (input s)), pre, post.
  split; [done|]. split; [done|]. split; [done|].
  split; [|split].
  - destruct (head (trim (input s))) as [c|] eqn:Hc.
    + exists c. split; [done | by apply Hh].
    + by apply head_None in Hc.
  - destruct (last (trim (input s))) as [c|] eqn:Hc.
    + exists c. split; [done | by apply Hl].
    + by apply last_None in Hc.
  - unfold addTodo. by destruct (trim (input s)).
Qed.

Lemma todo_add_nonblank_witness :
  exists txt,
    addTodo 7 (mkState [] [32; 32; 104; 32; 105; 9]%N All)
    = mkState [mkTodo 7 txt false] [] All.
Proof.
  assert (Hex : Exists (fun c => is_white_space c = false)
                  (input (mkState [] [32; 32; 104; 32; 105; 9]%N All))).
  { simpl. apply Exists_cons_tl, Exists_cons_tl, Exists_cons_hd.
    reflexivity. }
  destruct (todo_add_nonblank 7 _ Hex)
    as (txt & pre & post & _ & _ & _ & _ & _ & H).
  exists txt. exact H.
Defined.

(** [trim] is idempotent. *)
Lemma trim_trim u : trim (trim u) = trim u.
Proof.
  destruct (trim_spec u) as (_ & _ & _ & _ & _ & Hh & Hl).
  destruct (head (trim u)) as [c|] eqn:Hc.
  - destruct (last (trim u)) as [c'|] eqn:Hc'.
    + eapply trim_fixed; eauto.
    + apply last_None in Hc'. by rewrite Hc'.
  - apply head_None in Hc. by rewrite Hc.
Qed.

Lemma act_texts a s :
  Forall (fun t => text t <> [] /\ trim (text t) = text t) (todos s) ->
  Forall (fun t => text t <> [] /\ trim (text t) = text t) (todos (act a s)).
Proof.
  intros H. destruct a as [v|now|i|i|f]; simpl; [done| | | |done].
  - unfold addTodo. destruct (trim (input s)) as [|c r] eqn:E; [done|].
    simpl. apply Forall_app. split; [done|].
    constructor; [|constructor]. simpl. split; [done|].
    rewrite <- E. apply trim_trim.
  - induction H as [|t ts Ht Hts IH]; simpl; [constructor|].
    constructor; [|done]. by destruct (id t =? i)%Z.
  - induction H as [|t ts Ht Hts IH]; simpl; [constructor|].
    destruct (id t =? i)%Z; simpl; [done | by constructor].
Qed.

(** X3. Whatever the user does, every todo in the list has a text that is
    not empty and that [trim] would leave unchanged: no todo is blank or
    carries white space at either end. *)
Theorem todo_texts_trimmed (acts : list Action) :
  Forall (fun t => text t <> [] /\ trim (text t) = text t)
         (todos (run acts initial)).
Proof.
  induction acts as [|a acts IH] using rev_ind; [constructor|].
  unfold run in *. rewrite fold_left_app. simpl. by apply act_texts.
Qed.

(** X4. Ticking the same checkbox twice gives back the same list:
    [toggleTodo] is an involution on the whole state. *)
Theorem todo_toggle_twice i s : toggleTodo i (toggleTodo i s) = s.
Proof.
  destruct s as [ts inp f]. unfold toggleTodo; simpl. f_equal.
  rewrite map_map. rewrite <- (map_id ts) at 2. apply map_ext.
  intros [ti tt tc]; simpl.
  destruct (ti =? i)%Z eqn:E; simpl; [|by rewrite E].
  by rewrite E, negb_involutive.
Qed.

(** X5. [toggleTodo] keeps the number, the order, the ids and the texts of
    the todos; it negates [completed] on each todo whose id is the given
    one, and on no other. *)
Theorem todo_toggle_frame i s :
  Forall2 (fun t t' => id t' = id t /\ text t' = text t /\
                       completed t' = if (id t =? i)%Z
                                      then negb (completed t)
                                      else completed t)
          (todos s) (todos (toggleTodo i s)) /\
  input (toggleTodo i s) = input s /\
  filter (toggleTodo i s) = filter s.
Proof.
  split; [|done]. simpl.
  induction (todos s) as [|t ts IH]; simpl; [constructor|].
  constructor; [|done]. by destruct (id t =? i)%Z.
Qed.

(** X6. [deleteTodo] removes every todo with the given id and nothing
    else: what is left are the todos with another id, in their order; the
    list shrinks by the number of todos that had the id; deleting again
    changes nothing. *)
Theorem todo_delete i s :
  (forall t, In t (todos (deleteTodo i s)) <-> In t (todos s) /\ id t <> i) /\
  todos (deleteTodo i s) `sublist_of` todos s /\
  length (todos (deleteTodo i s))
    + length (List.filter (fun t => (id t =? i)%Z) (todos s))
    = length (todos s) /\
  deleteTodo i (deleteTodo i s) = deleteTodo i s.
Proof.
  split; [|split; [|split]].
  - intros t. simpl. rewrite filter_In, negb_true_iff, Z.eqb_neq. done.
  - simpl. induction (todos s) as [|t ts IH]; simpl; [constructor|].
    destruct (id t =? i)%Z; simpl; by constructor.
  - simpl. induction (todos s) as [|t ts IH]; simpl; [done|].
    destruct (id t =? i)%Z; simpl; lia.
  - unfold deleteTodo; simpl. f_equal.
    induction (todos s) as [|t ts IH]; simpl; [done|].
    destruct (id t =? i)%Z eqn:E; simpl; [done|]. by rewrite E, IH.
Qed.

Lemma filter_split {A : Type} (p : A -> bool) (l : list A) :
  List.filter (fun x => negb (p x)) l ++ List.filter p l ≡ₚ l.
Proof.
  induction l as [|x l IH]; simpl; [done|].
  destruct (p x); simpl.
  - rewrite <- Permutation_middle. by constructor.
  - by constructor.
Qed.

(** X7. The Active and the Completed tab split the list: every todo is
    shown under exactly one of them, so the two views together are a
    permutation of the list shown under All, and the counter of the footer
    is the length of the Active view. *)
Theorem todo_filter_partition s :
  filteredTodos (setFilter Active s) ++ filteredTodos (setFilter Completed s)
    ≡ₚ filteredTodos (setFilter All s) /\
  filteredTodos (setFilter All s) = todos s /\
  activeCount s = length (filteredTodos (setFilter Active s)) /\
  activeCount s + length (filteredTodos (setFilter Completed s))
    = length (todos s).
Proof.
  assert (Hall : filteredTodos (setFilter All s) = todos s).
  { unfold filteredTodos; simpl.
    induction (todos s) as [|t ts IH]; simpl; [done | by rewrite IH]. }
  assert (Hperm : filteredTodos (setFilter Active s)
                  ++ filteredTodos (setFilter Completed s) ≡ₚ todos s).
  { apply (filter_split completed). }
  split; [by rewrite Hall|]. split; [done|]. split; [done|].
  unfold activeCount. apply Permutation_length in Hperm.
  rewrite length_app in Hperm. exact Hperm.
Qed.

End TodoListProperties.

Section TodoListIds.
Import TodoList.
Implicit Types (s : State) (t : Todo) (i now : Z).

Lemma act_ids a s (clk : list Z) :
  map id (todos s) `sublist_of` clk ->
  map id (todos (act a s)) `sublist_of` clk ++ clock [a].
Proof.
  intros H. destruct a as [v|now|i|i|f]; simpl;
    try (rewrite app_nil_r; exact H).
  - unfold addTodo. destruct (falsy (trim (input s))); simpl.
    + by apply sublist_inserts_r.
    + rewrite map_app. simpl. by apply sublist_app.
  - rewrite app_nil_r, map_map. simpl.
    erewrite map_ext; [exact H|]. intros t. simpl. by destruct (id t =? i)%Z.
  - rewrite app_nil_r. etransitivity; [|exact H].
    clear H. induction (todos s) as [|t ts IH]; simpl; [constructor|].
    destruct (id t =? i)%Z; simpl; by constructor.
Qed.

Lemma clock_app (acts1 acts2 : list Action) :
  clock (acts1 ++ acts2) = clock acts1 ++ clock acts2.
Proof. unfold clock. apply omap_app. Qed.

(** The ids in the list are, in order, values the clock returned at the
    adds. *)
Lemma run_ids (acts : list Action) :
  map id (todos (run acts initial)) `sublist_of` clock acts.
Proof.
  induction acts as [|a acts IH] using rev_ind; [constructor|].
  unfold run in *. rewrite fold_left_app, clock_app. simpl.
  by apply act_ids.
Qed.

(** X8. If [Date.now()] never returns the same value at two adds, no two
    todos of the list share an id, whatever else the user does. *)
Theorem todo_ids_unique (acts : list Action) :
  NoDup (clock acts) ->
  NoDup (map id (todos (run acts initial))).
Proof.
  intros H. eapply sublist_NoDup; [exact H | apply run_ids].
Qed.

Lemma todo_ids_unique_witness :
  NoDup (map id (todos (run [Type_ [97]%N; Add 10; Type_ [98]%N; Add 11;
                             Toggle 10; Type_ [99]%N; Add 12; Delete 11]
                            initial))).
Proof.
  apply (todo_ids_unique [Type_ [97]%N; Add 10; Type_ [98]%N; Add 11;
                          Toggle 10; Type_ [99]%N; Add 12; Delete 11]).
  apply NoDup_ListNoDup. simpl.
  constructor; [simpl; lia|]. constructor; [simpl; lia|].
  constructor; [simpl; lia|]. constructor.
Defined.

Lemma toggle_absent i (ts : list Todo) :
  ~ In i (map id ts) ->
  map (fun t => if (id t =? i)%Z
                then mkTodo (id t) (text t) (negb (completed t))
                else t) ts = ts /\
  List.filter (fun t => negb (id t =? i)%Z) ts = ts.
Proof.
  induction ts as [|t ts IH]; simpl; [done|].
  intros H. destruct (id t =? i)%Z eqn:E.
  - apply Z.eqb_eq in E. tauto.
  - simpl. destruct IH as [-> ->]; [tauto | done].
Qed.

(** X9. When no two todos share an id, a tick on the checkbox of a todo of
    the list changes the number of remaining tasks by exactly one, down if
    the todo was active and up if it was completed, and a click on its
    Delete button shortens the list by exactly one. *)
Theorem todo_single_effect s t :
  NoDup (map id (todos s)) ->
  In t (todos s) ->
  (if completed t
   then activeCount (toggleTodo (id t) s) = S (activeCount s)
   else S (activeCount (toggleTodo (id t) s)) = activeCount s) /\
  S (length (todos (deleteTodo (id t) s))) = length (todos s).
Proof.
  unfold activeCount. simpl. intros Hnd Hin.
  induction (todos s) as [|t0 ts IH]; simpl in *; [done|].
  apply NoDup_cons in Hnd as [Hnotin Hnd].
  destruct Hin as [->|Hin].
  - rewrite Z.eqb_refl. simpl.
    assert (Hn : ~ In (id t) (map id ts)).
    { intros H. apply Hnotin. by apply list_elem_of_In. }
    destruct (toggle_absent (id t) ts Hn) as [-> ->].
    destruct (completed t); simpl; done.
  - assert (Hne : (id t0 =? id t)%Z = false).
    { apply Z.eqb_neq. intros E. apply Hnotin. rewrite E.
      apply list_elem_of_In, in_map. done. }
    rewrite Hne. simpl. destruct (IH Hnd Hin) as [IH1 IH2].
    split; [|lia].
    destruct (completed t), (completed t0); simpl; lia.
Qed.

Lemma todo_single_effect_witness :
  activeCount (toggleTodo 2 (mkState [mkTodo 1 [97]%N false;
                                      mkTodo 2 [98]%N true;
                                      mkTodo 3 [99]%N false] [] All))
  = S (activeCount (mkState [mkTodo 1 [97]%N false;
                             mkTodo 2 [98]%N true;
                             mkTodo 3 [99]%N false] [] All)).
Proof.
  assert (Hnd : NoDup (map id (todos (mkState [mkTodo 1 [97]%N false;
                                               mkTodo 2 [98]%N true;
                                               mkTodo 3 [99]%N false]
                                              [] All)))).
  { apply NoDup_ListNoDup. simpl.
    constructor; [simpl; lia|]. constructor; [simpl; lia|].
    constructor; [simpl; lia|]. constructor. }
  assert (Hin : In (mkTodo 2 [98]%N true)
                  (todos (mkState [mkTodo 1 [97]%N false;
                                   mkTodo 2 [98]%N true;
                                   mkTodo 3 [99]%N false] [] All))).
  { simpl. right. left. reflexivity. }
  exact (proj1 (todo_single_effect _ _ Hnd Hin)).
Defined.

Lemma filter_nil_all {A : Type} (p : A -> bool) (l : list A) :
  List.filter p l = [] <-> Forall (fun x => p x = false) l.
Proof.
  induction l as [|x l IH]; simpl; [done|].
  destruct (p x) eqn:E.
  - split; [done|]. inversion 1; congruence.
  - rewrite IH. split; [by constructor | by inversion 1].
Qed.

(** X10. The empty-message paragraph.  It reads "No tasks yet. Add one
    above!" exactly when there is no todo at all; otherwise it is rendered
    only under the Active tab when every todo is completed, and under the
    Completed tab when none is; under the All tab a list with todos never
    shows it, so "No all tasks." is never displayed. *)
Theorem todo_empty_message s :
  (empty_message s = Some "No tasks yet. Add one above!" <-> todos s = []) /\
  (todos s <> [] ->
   (empty_message s = Some "No active tasks." <->
      filter s = Active /\ Forall (fun t => completed t = true) (todos s)) /\
   (empty_message s = Some "No completed tasks." <->
      filter s = Completed /\ Forall (fun t => completed t = false) (todos s)) /\
   (filter s = All -> empty_message s = None)) /\
  empty_message s <> Some "No all tasks.".
Proof.
  assert (Hshown : forall f,
            Nat.eqb (length (List.filter (shown f) (todos s))) 0 = true <->
            Forall (fun t => shown f t = false) (todos s)).
  { intros f. rewrite <- filter_nil_all.
    destruct (List.filter (shown f) (todos s)); simpl; split; done. }
  unfold empty_message, filteredTodos.
  destruct (Nat.eqb (length (List.filter (shown (filter s)) (todos s))) 0)
    eqn:Hempty.
  2: { assert (Hno : ~ Forall (fun t => shown (filter s) t = false) (todos s)).
       { rewrite <- Hshown. congruence. }
       split; [|split; [|done]].
       - split; [done|]. intros E. rewrite E in Hno. by destruct Hno.
       - intros _. split; [|split; [|done]].
         + split; [done|]. intros [Ef H]. destruct Hno. rewrite Ef.
           eapply Forall_impl; [exact H|]. intros x. simpl. by intros ->.
         + split; [done|]. intros [Ef H]. destruct Hno. by rewrite Ef. }
  apply Hshown in Hempty.
  destruct (todos s) as [|t ts] eqn:Ets.
  { simpl. split; [done|]. split; [done|]. done. }
  simpl length. simpl Nat.eqb.
  destruct (filter s) eqn:Ef; simpl.
  - inversion Hempty. simpl in *. done.
  - split; [done|]. split; [|done]. intros _.
    split; [|split; [|done]].
    + split; [intros _; split; [done|] | done].
      eapply Forall_impl; [exact Hempty|]. intros x. simpl.
      by destruct (completed x).
    + split; [done | by intros [? _]].
  - split; [done|]. split; [|done]. intros _.
    split; [|split; [|done]].
    + split; [done | by intros [? _]].
    + split; [intros _; split; [done|] | done]. exact Hempty.
Qed.

Lemma todo_empty_message_witness :
  empty_message (mkState [mkTodo 1 [97]%N true] [] Active)
  = Some "No active tasks.".
Proof.
  destruct (todo_empty_message (mkState [mkTodo 1 [97]%N true] [] Active))
    as (_ & H & _).
  assert (Hne : todos (mkState [mkTodo 1 [97]%N true] [] Active) <> [])
    by discriminate.
  destruct (H Hne) as ((_ & Hactive) & _).
  apply Hactive. split; [reflexivity | repeat constructor].
Defined.

End TodoListIds.

(** * Counter *)

Section CounterProperties.
Import Counter.
Context {num : Type} `{Number num}.
Implicit Types (p : Props num) (s : State num) (c : Click) (m : num).

Lemma update_cases p newCount s :
  update p newCount s = s \/
  (update p newCount s = commit p newCount s /\
   forall m, max p = Some m -> num_gt newCount m = false).
Proof.
  unfold update. destruct (max p) as [m|] eqn:Em.
  - destruct (num_gt newCount m) eqn:E; [by left|].
    right. split; [done|]. by intros ? [= <-].
  - right. split; [done|]. done.
Qed.

Lemma click_cases p c s :
  click p c s = s \/
  exists newCount,
    click p c s = commit p newCount s /\
    forall m, max p = Some m -> num_gt newCount m = false.
Proof.
  destruct c; simpl.
  - destruct (update_cases p (num_sub (count s) (step p)) s) as [->|[-> ?]];
      [by left | right; eauto].
  - destruct (at_max p s); [by left|].
    destruct (update_cases p (num_add (count s) (step p)) s) as [->|[-> ?]];
      [by left | right; eauto].
  - destruct (num_neq (count s) num_zero); [|by left].
    destruct (update_cases p num_zero s) as [->|[-> ?]];
      [by left | right; eauto].
Qed.

(** X11. With a [max], no click ever brings the count above it: every
    value handed to [onCountChange] passes the test [newCount > max] as
    false, and so does the count itself whenever [initialCount] does.  This
    holds for any meaning of the comparison and of the arithmetic, and for
    any [step], negative ones included. *)
Theorem counter_never_exceeds_max p m (cs : list Click) :
  max p = Some m ->
  Forall (fun v => num_gt v m = false) (calls (run p cs (initial p))) /\
  (num_gt (initialCount p) m = false ->
   num_gt (count (run p cs (initial p))) m = false).
Proof.
  intros Em.
  induction cs as [|c cs [IHcalls IHcount]] using rev_ind.
  - split; [constructor | done].
  - unfold run in *. rewrite fold_left_app. simpl.
    set (s := fold_left (fun st c0 => click p c0 st) cs (initial p)) in *.
    destruct (click_cases p c s) as [-> | (v & -> & Hv)]; [done|].
    specialize (Hv m Em). split; [|done].
    unfold commit; simpl. destruct (onCountChange p); [by constructor | done].
Qed.

(** X12. When [onCountChange] is passed, the parent always knows the
    count: after any clicks the count is the value of the latest call, or
    [initialCount] if there has been none; a refused update makes no call.
    When it is not passed, no call is recorded. *)
Theorem counter_reports_count p (cs : list Click) :
  (onCountChange p = true ->
   count (run p cs (initial p))
   = hd (initialCount p) (calls (run p cs (initial p)))) /\
  (onCountChange p = false -> calls (run p cs (initial p)) = []).
Proof.
  induction cs as [|c cs [IHon IHoff]] using rev_ind; [done|].
  unfold run in *. rewrite fold_left_app. simpl.
  set (s := fold_left (fun st c0 => click p c0 st) cs (initial p)) in *.
  destruct (click_cases p c s) as [-> | (v & -> & _)]; [done|].
  unfold commit; simpl. split; intros E; rewrite E; [done | by apply IHoff].
Qed.

End CounterProperties.

Lemma counter_never_exceeds_max_witness :
  Counter.count
    (Counter.run (Counter.mkProps 0 2 true (Some 3))%Z
       [Counter.Increment; Counter.Increment; Counter.Increment;
        Counter.Decrement; Counter.Reset]
       (Counter.initial (Counter.mkProps 0 2 true (Some 3))%Z))
  = 0%Z /\
  Counter.num_gt
    (Counter.count
       (Counter.run (Counter.mkProps 0 2 true (Some 3))%Z
          [Counter.Increment; Counter.Increment]
          (Counter.initial (Counter.mkProps 0 2 true (Some 3))%Z)))
    3%Z = false.
Proof.
  split; [reflexivity|].
  assert (Em : Counter.max (Counter.mkProps 0 2 true (Some 3))%Z = Some 3%Z)
    by reflexivity.
  assert (Hi : Counter.num_gt
                 (Counter.initialCount (Counter.mkProps 0 2 true (Some 3))%Z)
                 3%Z = false) by reflexivity.
  exact (proj2 (counter_never_exceeds_max
                  (Counter.mkProps 0 2 true (Some 3))%Z 3%Z
                  [Counter.Increment; Counter.Increment] Em) Hi).
Defined.

Lemma counter_reports_count_witness :
  Counter.count
    (Counter.run (Counter.mkProps 5 10 true (Some 20))%Z
       [Counter.Increment; Counter.Increment; Counter.Decrement]
       (Counter.initial (Counter.mkProps 5 10 true (Some 20))%Z))
  = hd 5%Z
      (Counter.calls
         (Counter.run (Counter.mkProps 5 10 true (Some 20))%Z
            [Counter.Increment; Counter.Increment; Counter.Decrement]
            (Counter.initial (Counter.mkProps 5 10 true (Some 20))%Z))).
Proof.
  assert (Eon : Counter.onCountChange (Counter.mkProps 5 10 true (Some 20))%Z
                = true) by reflexivity.
  exact (proj1 (counter_reports_count
                  (Counter.mkProps 5 10 true (Some 20))%Z
                  [Counter.Increment; Counter.Increment; Counter.Decrement])
               Eon).
Defined.

(** * UserList: how settlements compose *)

Section SettlementOrder.
Context {T : Type}.
Implicit Types (s : UserList T) (c : nat) (cl : Closure) (o : Settlement T).

Lemma exec_settle_lookup_ne s c c' o :
  c <> c' -> closures (exec (Settle c o) s) !! c' = closures s !! c'.
Proof.
  intros Hne. destruct (closures s !! c) as [cl|] eqn:H.
  2: { by rewrite exec_settle_absent. }
  destruct (suspended cl) eqn:Hs.
  2: { by erewrite exec_settle_not_parked. }
  destruct (cancelled cl) eqn:Hc.
  { erewrite exec_settle_cancelled by eauto. simpl.
    by rewrite list_lookup_insert_ne. }
  destruct o.
  - erewrite exec_settle_fulfilled by eauto. simpl.
    by rewrite list_lookup_insert_ne.
  - erewrite exec_settle_rejected by eauto. simpl.
    by rewrite list_lookup_insert_ne.
Qed.

(** A settlement that resumes nothing stays so after another settlement. *)
Lemma exec_settle_idle s c c' o o' :
  c <> c' ->
  (forall cl, closures s !! c = Some cl -> suspended cl = false) ->
  exec (Settle c o) s = s /\
  exec (Settle c o) (exec (Settle c' o') s) = exec (Settle c' o') s.
Proof.
  intros Hne Hidle.
  assert (Hgen : forall s', closures s' !! c = closures s !! c ->
                            exec (Settle c o) s' = s').
  { intros s' E. destruct (closures s !! c) as [cl|] eqn:H.
    - eapply exec_settle_not_parked; [exact E | by apply Hidle].
    - by apply exec_settle_absent. }
  split; [by apply Hgen|]. apply Hgen. by apply exec_settle_lookup_ne.
Qed.

(** X13. Settlements of two different promises commute: in a reachable
    state the component ends the same whichever of the two settles first. *)
Theorem settlements_commute s c1 c2 o1 o2 :
  reachable s ->
  c1 <> c2 ->
  exec (Settle c1 o1) (exec (Settle c2 o2) s)
  = exec (Settle c2 o2) (exec (Settle c1 o1) s).
Proof.
  intros R Hne. pose proof (reachable_consistent s R) as I.
  assert (Hne' : c2 <> c1) by congruence.
  destruct (closures s !! c1) as [cl1|] eqn:H1.
  2: { destruct (exec_settle_idle s c1 c2 o1 o2 Hne) as [-> ->]; [|done].
       intros cl. by rewrite H1. }
  destruct (suspended cl1) eqn:Hs1.
  2: { destruct (exec_settle_idle s c1 c2 o1 o2 Hne) as [-> ->]; [|done].
       intros cl. rewrite H1. by intros [= <-]. }
  destruct (closures s !! c2) as [cl2|] eqn:H2.
  2: { destruct (exec_settle_idle s c2 c1 o2 o1 Hne') as [-> ->]; [|done].
       intros cl. by rewrite H2. }
  destruct (suspended cl2) eqn:Hs2.
  2: { destruct (exec_settle_idle s c2 c1 o2 o1 Hne') as [-> ->]; [|done].
       intros cl. rewrite H2. by intros [= <-]. }
  assert (L1 : closures (exec (Settle c2 o2) s) !! c1 = Some cl1)
    by (by rewrite exec_settle_lookup_ne).
  assert (L2 : closures (exec (Settle c1 o1) s) !! c2 = Some cl2)
    by (by rewrite exec_settle_lookup_ne).
  destruct (cancelled cl1) eqn:Hc1; destruct (cancelled cl2) eqn:Hc2.
  - rewrite (exec_settle_cancelled _ c1 cl1 o1 L1 Hs1 Hc1).
    rewrite (exec_settle_cancelled _ c2 cl2 o2 L2 Hs2 Hc2).
    rewrite (exec_settle_cancelled s c1 cl1 o1 H1 Hs1 Hc1).
    rewrite (exec_settle_cancelled s c2 cl2 o2 H2 Hs2 Hc2).
    unfold with_closures; simpl. f_equal. by apply list_insert_insert_ne.
  - rewrite (exec_settle_cancelled _ c1 cl1 o1 L1 Hs1 Hc1).
    destruct o2 as [data|reason].
    + rewrite (exec_settle_fulfilled _ c2 cl2 data L2 Hs2 Hc2).
      rewrite (exec_settle_cancelled s c1 cl1 o1 H1 Hs1 Hc1).
      rewrite (exec_settle_fulfilled s c2 cl2 data H2 Hs2 Hc2).
      unfold with_closures; simpl. f_equal. by apply list_insert_insert_ne.
    + rewrite (exec_settle_rejected _ c2 cl2 reason L2 Hs2 Hc2).
      rewrite (exec_settle_cancelled s c1 cl1 o1 H1 Hs1 Hc1).
      rewrite (exec_settle_rejected s c2 cl2 reason H2 Hs2 Hc2).
      unfold with_closures; simpl. f_equal. by apply list_insert_insert_ne.
  - rewrite (exec_settle_cancelled _ c2 cl2 o2 L2 Hs2 Hc2).
    destruct o1 as [data|reason].
    + rewrite (exec_settle_fulfilled _ c1 cl1 data L1 Hs1 Hc1).
      rewrite (exec_settle_cancelled s c2 cl2 o2 H2 Hs2 Hc2).
      rewrite (exec_settle_fulfilled s c1 cl1 data H1 Hs1 Hc1).
      unfold with_closures; simpl. f_equal. by apply list_insert_insert_ne.
    + rewrite (exec_settle_rejected _ c1 cl1 reason L1 Hs1 Hc1).
      rewrite (exec_settle_cancelled s c2 cl2 o2 H2 Hs2 Hc2).
      rewrite (exec_settle_rejected s c1 cl1 reason H1 Hs1 Hc1).
      unfold with_closures; simpl. f_equal. by apply list_insert_insert_ne.
  - pose proof (live_is_current s c1 cl1 I H1 Hc1).
    pose proof (live_is_current s c2 cl2 I H2 Hc2). congruence.
Qed.

(** A settlement in a consistent state is discarded, cells and cleanup
    untouched, or it is the settlement of the current parked [load]. *)
Lemma settle_discard_or_commit s c o :
  consistent s ->
  (cells (exec (Settle c o) s) = cells s /\
   cleanup (exec (Settle c o) s) = cleanup s) \/
  (current_parked c s /\ cleanup s = Some c).
Proof.
  intros I. destruct (closures s !! c) as [cl|] eqn:H.
  2: { left. by rewrite exec_settle_absent. }
  destruct (suspended cl) eqn:Hs.
  2: { left. by erewrite exec_settle_not_parked. }
  destruct (cancelled cl) eqn:Hc.
  { left. by erewrite exec_settle_cancelled. }
  right. pose proof (live_is_current s c cl I H Hc) as Hcur.
  split; [|done]. split.
  - destruct cl; simpl in *; by subst.
  - intros c' cl' Hne' H'. eapply stale_cancelled; eauto. congruence.
  - by eapply parked_loading.
  - eapply loading_no_error; [done|]. by eapply parked_loading.
Qed.

Lemma at_most_one_commit_consistent s (evs : list (Event T)) :
  consistent s ->
  settlements_only evs ->
  cells (run evs s) = cells s \/
  exists evs1 c o evs2,
    evs = evs1 ++ Settle c o :: evs2 /\
    cleanup s = Some c /\
    cells (run evs1 s) = cells s /\
    cells (run evs s) =
      match o with
      | Fulfilled data => (data, false, None)
      | Rejected reason => (users s, false, Some (error_text reason))
      end.
Proof.
  revert s. induction evs as [|ev evs IH]; intros s I Hevs; [by left|].
  inversion Hevs as [|? ? Hev Hrest]; subst.
  destruct ev as [|c o|]; [done| |done]. simpl.
  destruct (settle_discard_or_commit s c o I) as [[Hcells Hcl] | [Hcp Hcur]].
  - destruct (IH _ (consistent_exec (Settle c o) s I) Hrest)
      as [Hsame | (evs1 & c' & o' & evs2 & -> & Hcur & Hpre & Hfin)].
    + left. by rewrite Hsame.
    + right. exists (Settle c o :: evs1), c', o', evs2.
      split; [done|]. split; [by rewrite <- Hcl|].
      split; [simpl; by rewrite Hpre|].
      rewrite Hfin. unfold cells in Hcells. by injection Hcells as -> _ _.
  - right. exists [], c, o, evs.
    destruct (current_parked_commit s c o Hcp) as [Hcommit Hq].
    split; [done|]. split; [done|]. split; [done|].
    by rewrite quiet_run.
Qed.

(** X14. At most one commit per start.  Of any sequence of settlements that
    follows a reachable state, at most one changes the cells: either none
    does, or exactly the settlement of the promise of the current effect
    does, the cells before it being untouched and the cells at the end being
    its outcome, whatever settles after it. *)
Theorem at_most_one_commit s (evs : list (Event T)) :
  reachable s ->
  settlements_only evs ->
  cells (run evs s) = cells s \/
  exists evs1 c o evs2,
    evs = evs1 ++ Settle c o :: evs2 /\
    cleanup s = Some c /\
    cells (run evs1 s) = cells s /\
    cells (run evs s) =
      match o with
      | Fulfilled data => (data, false, None)
      | Rejected reason => (users s, false, Some (error_text reason))
      end.
Proof.
  intros R. by apply at_most_one_commit_consistent, reachable_consistent.
Qed.

End SettlementOrder.

Lemma settlements_commute_witness :
  cells (run [Start ReturnsPromise; Start ReturnsPromise;
              Settle 0 (Rejected (JsError "late")); Settle 1 (Fulfilled ["x"])]
             (@initial string))
  = cells (run [Start ReturnsPromise; Start ReturnsPromise;
                Settle 1 (Fulfilled ["x"]); Settle 0 (Rejected (JsError "late"))]
               (@initial string)).
Proof.
  assert (R : reachable (run [Start ReturnsPromise; Start ReturnsPromise]
                             (@initial string)))
    by (apply reachable_run, reachable_initial).
  assert (Hne : 1 <> 0) by lia.
  pose proof (settlements_commute _ 1 0 (Fulfilled ["x"])
                (Rejected (JsError "late")) R Hne) as H.
  apply (f_equal cells) in H. revert H. cbv. exact (fun Hnf => Hnf).
Defined.

Lemma at_most_one_commit_witness :
  cells (run [Start ReturnsPromise; Start ReturnsPromise;
              Settle 0 (Fulfilled ["y"]); Settle 1 (Fulfilled ["x"]);
              Settle 1 (Rejected JsNull)] (@initial string))
  = (["x"], false, None).
Proof.
  assert (R : reachable (run [Start ReturnsPromise; Start ReturnsPromise]
                             (@initial string)))
    by (apply reachable_run, reachable_initial).
  assert (Hevs : settlements_only
                   [Settle 0 (@Fulfilled string ["y"]);
                    Settle 1 (Fulfilled ["x"]); Settle 1 (Rejected JsNull)])
    by repeat constructor.
  destruct (at_most_one_commit _ _ R Hevs)
    as [Hsame | (evs1 & c & o & evs2 & E & Hcur & Hpre & Hfin)].
  - revert Hsame. cbv. discriminate.
  - assert (Ec : c = 1) by (revert Hcur; cbv; congruence).
    subst c. destruct evs1 as [|e1 [|e2 [|e3 evs1]]]; simpl in E.
    + discriminate E.
    + injection E as _ Eo _. subst o.
      revert Hfin. cbv. exact (fun Hnf => Hnf).
    + injection E as _ _ Eo _. subst o.
      revert Hfin. cbv. discriminate.
    + injection E as _ _ _ E. by destruct evs1.
Defined.

(** * The e-mail patterns *)

Section RegexFacts.
Import Regex.
Implicit Types (r : re) (u : list N) (c : N).

Lemma nullable_Match r : nullable r = true <-> Match r [].
Proof.
  induction r as [| |p|r1 IH1 r2 IH2|r1 IH1 r2 IH2|r IH]; simpl.
  - split; [done | inversion 1].
  - split; [constructor | done].
  - split; [done | inversion 1].
  - rewrite andb_true_iff, IH1, IH2. split.
    + intros [H1 H2]. apply (Match_Cat r1 r2 [] [] H1 H2).
    + inversion 1 as [| |? ? u1 u2 H1 H2 E1 E2| | | |]; subst.
      destruct u1; [|done]. destruct u2; [|done]. done.
  - rewrite orb_true_iff, IH1, IH2. split.
    + intros [H|H]; [by apply Match_Alt_l | by apply Match_Alt_r].
    + inversion 1; subst; [by left | by right].
  - split; [constructor | done].
Qed.

(** A match of [r*] that begins with [c] begins with a match of [r] that
    begins with [c]. *)
Lemma Match_Star_cons r0 r u :
  Match r u -> r = Star r0 ->
  forall c u', u = c :: u' ->
  exists u1 u2, u' = u1 ++ u2 /\ Match r0 (c :: u1) /\ Match (Star r0) u2.
Proof.
  induction 1 as [| | | | | |r' u1 u2 H1 _ H2 IH2]; try done.
  intros [= ->] c u' E.
  destruct u1 as [|c1 u1]; simpl in E.
  - by apply IH2.
  - injection E as -> <-. by exists u1, u2.
Qed.

Lemma deriv_Match r c u : Match (deriv c r) u <-> Match r (c :: u).
Proof.
  revert u.
  induction r as [| |p|r1 IH1 r2 IH2|r1 IH1 r2 IH2|r IH]; intros u; simpl.
  - split; inversion 1.
  - split; inversion 1.
  - destruct (p c) eqn:E.
    + split.
      * inversion 1; subst. by constructor.
      * inversion 1; subst. constructor.
    + split; [inversion 1|]. inversion 1; subst. congruence.
  - assert (Hcat : Match (Cat (deriv c r1) r2) u ->
                   Match (Cat r1 r2) (c :: u)).
    { inversion 1 as [| |? ? u1 u2 H1 H2| | | |]; subst.
      apply IH1 in H1. apply (Match_Cat r1 r2 (c :: u1) u2 H1 H2). }
    assert (Hinv : Match (Cat r1 r2) (c :: u) ->
                   Match (Cat (deriv c r1) r2) u \/
                   (Match r1 [] /\ Match r2 (c :: u))).
    { inversion 1 as [| |? ? u1 u2 H1 H2 E1 E2| | | |]; subst.
      destruct u1 as [|c1 u1]; simpl in *.
      - right. by subst.
      - injection E2 as -> <-. left. constructor; [by apply IH1 | done]. }
    destruct (nullable r1) eqn:En.
    + split.
      * inversion 1; subst; [by apply Hcat|].
        apply nullable_Match in En.
        apply (Match_Cat r1 r2 [] (c :: u) En). by apply IH2.
      * intros H. destruct (Hinv H) as [H'|[_ H']].
        -- by apply Match_Alt_l.
        -- apply Match_Alt_r. by apply IH2.
    + split; [done|].
      intros H. destruct (Hinv H) as [H'|[H' _]]; [done|].
      apply nullable_Match in H'. congruence.
  - split.
    + inversion 1; subst;
        [apply Match_Alt_l; by apply IH1 | apply Match_Alt_r; by apply IH2].
    + inversion 1; subst;
        [apply Match_Alt_l; by apply IH1 | apply Match_Alt_r; by apply IH2].
  - split.
    + inversion 1 as [| |? ? u1 u2 H1 H2| | | |]; subst.
      apply IH in H1. apply (Match_Star_app r (c :: u1) u2 H1 H2).
    + intros H.
      destruct (Match_Star_cons r _ _ H eq_refl c u eq_refl)
        as (u1 & u2 & -> & H1 & H2).
      constructor; [by apply IH | done].
Qed.

(** The matcher decides the pattern. *)
Lemma matches_Match r u : matches r u = true <-> Match r u.
Proof.
  revert r. induction u as [|c u IH]; intros r; simpl.
  - apply nullable_Match.
  - rewrite IH. apply deriv_Match.
Qed.

Lemma Match_Star_Forall p u :
  Match (Star (Class p)) u <-> Forall (fun c => p c = true) u.
Proof.
  split.
  - intros H. remember (Star (Class p)) as r eqn:Er.
    induction H as [| | | | | |r' u1 u2 H1 _ H2 IH2]; try done.
    injection Er as ->. inversion H1; subst. simpl.
    constructor; [done | by apply IH2].
  - induction 1 as [|c u Hc _ IH]; [constructor|].
    apply (Match_Star_app (Class p) [c] u); [by constructor | done].
Qed.

(** [p+] matches the non-empty strings of characters of the class [p]. *)
Lemma Match_Plus_Forall p u :
  Match (Plus (Class p)) u <-> u <> [] /\ Forall (fun c => p c = true) u.
Proof.
  unfold Plus. split.
  - inversion 1 as [| |? ? u1 u2 H1 H2| | | |]; subst.
    inversion H1; subst. apply Match_Star_Forall in H2.
    split; [done | by constructor].
  - intros [Hne H]. destruct u as [|c u]; [done|].
    inversion H; subst.
    apply (Match_Cat (Class p) (Star (Class p)) [c] u);
      [by constructor | by apply Match_Star_Forall].
Qed.

Lemma Match_Chr c u : Match (Chr c) u <-> u = [c].
Proof.
  unfold Chr. split.
  - inversion 1 as [|p c' E| | | | |]; subst. apply N.eqb_eq in E. by subst.
  - intros ->. constructor. apply N.eqb_refl.
Qed.

(** The strings of the shape [a@b.c], with [a], [b] and [c] non-empty and
    made of characters of the class [p]. *)
Lemma Match_email p u :
  Match (Cat (Plus (Class p))
             (Cat (Chr 64) (Cat (Plus (Class p))
                                (Cat (Chr 46) (Plus (Class p)))))) u <->
  exists a b d,
    u = a ++ [64%N] ++ b ++ [46%N] ++ d /\
    (a <> [] /\ Forall (fun c => p c = true) a) /\
    (b <> [] /\ Forall (fun c => p c = true) b) /\
    (d <> [] /\ Forall (fun c => p c = true) d).
Proof.
  split.
  - inversion 1 as [| |? ? a u1 Ha H1| | | |]; subst.
    inversion H1 as [| |? ? at_ u2 Hat H2| | | |]; subst.
    inversion H2 as [| |? ? b u3 Hb H3| | | |]; subst.
    inversion H3 as [| |? ? dot d Hdot Hd| | | |]; subst.
    apply Match_Chr in Hat, Hdot. subst.
    apply Match_Plus_Forall in Ha, Hb, Hd. by exists a, b, d.
  - intros (a & b & d & -> & Ha & Hb & Hd).
    apply Match_Plus_Forall in Ha, Hb, Hd.
    repeat (constructor; try done); by apply Match_Chr.
Qed.

End RegexFacts.

Section EmailPatterns.
Import Regex.
Implicit Types (u a b d : list N) (c : N).

Lemma test_Match r u :
  test r u = true <->
  exists pre w post, u = pre ++ w ++ post /\ Match r w.
Proof.
  unfold test. rewrite matches_Match. split.
  - inversion 1 as [| |? ? pre u1 _ H1| | | |]; subst.
    inversion H1 as [| |? ? w post Hw _| | | |]; subst.
    by exists pre, w, post.
  - intros (pre & w & post & -> & Hw).
    assert (Hany : forall v, Match anything v).
    { intros v. apply Match_Star_Forall. by apply Forall_true. }
    constructor; [done|]. by constructor.
Qed.

(** X15. [isValidEmail] accepts exactly the strings of the shape [a@b.c]
    where [a], [b] and [c] are non-empty and hold neither white space nor
    an [@]. *)
Theorem valid_email_shape u :
  Helpers.isValidEmail u = true <->
  exists a b d,
    u = a ++ [64%N] ++ b ++ [46%N] ++ d /\
    (a <> [] /\
     Forall (fun c => TodoList.is_white_space c = false /\ c <> 64%N) a) /\
    (b <> [] /\
     Forall (fun c => TodoList.is_white_space c = false /\ c <> 64%N) b) /\
    (d <> [] /\
     Forall (fun c => TodoList.is_white_space c = false /\ c <> 64%N) d).
Proof.
  unfold Helpers.isValidEmail, test_anchored, valid_email, non_space_non_at.
  rewrite matches_Match, Match_email.
  assert (Hp : forall v,
            Forall (fun c => negb (TodoList.is_white_space c || (c =? 64)%N)
                             = true) v <->
            Forall (fun c => TodoList.is_white_space c = false /\ c <> 64%N) v).
  { intros v. apply Forall_iff. intros c.
    rewrite negb_true_iff, orb_false_iff, N.eqb_neq. done. }
  split; intros (a & b & d & E & [? Ha] & [? Hb] & [? Hd]);
    exists a, b, d; (split; [done|]); rewrite ?Hp in *; rewrite <- ?Hp in *;
    done.
Qed.

(** X16. An address [isValidEmail] accepts holds exactly one [@] and no
    white space, and is at least five characters long. *)
Theorem valid_email_one_at u :
  Helpers.isValidEmail u = true ->
  count_occ N.eq_dec u 64%N = 1 /\
  Forall (fun c => TodoList.is_white_space c = false) u /\
  5 <= length u.
Proof.
  intros H. apply valid_email_shape in H
    as (a & b & d & -> & [Hna Ha] & [Hnb Hb] & [Hnd Hd]).
  assert (Hcount : forall v,
            Forall (fun c => TodoList.is_white_space c = false /\ c <> 64%N) v ->
            count_occ N.eq_dec v 64%N = 0).
  { intros v Hv. apply count_occ_not_In. intros Hin.
    rewrite Forall_forall in Hv. apply list_elem_of_In in Hin.
    by destruct (Hv _ Hin). }
  assert (Hws : forall v,
            Forall (fun c => TodoList.is_white_space c = false /\ c <> 64%N) v ->
            Forall (fun c => TodoList.is_white_space c = false) v).
  { intros v Hv. eapply Forall_impl; [exact Hv|]. by intros c [? _]. }
  split; [|split].
  - rewrite !count_occ_app, (Hcount a), (Hcount b), (Hcount d) by done.
    reflexivity.
  - rewrite !Forall_app. repeat split; auto; by repeat constructor.
  - rewrite !length_app. simpl.
    destruct a; [done|]. destruct b; [done|]. destruct d; [done|].
    simpl. lia.
Qed.

Lemma valid_email_one_at_witness :
  count_occ N.eq_dec [97; 64; 98; 46; 99]%N 64%N = 1.
Proof.
  assert (H : Helpers.isValidEmail [97; 64; 98; 46; 99]%N = true)
    by reflexivity.
  exact (proj1 (valid_email_one_at _ H)).
Defined.

(** X17. The login form is the laxer of the two checks: whatever
    [isValidEmail] accepts passes the pattern of [validate], which also
    accepts a second [@] and white space around the address. *)
Theorem valid_email_passes_form u :
  (Helpers.isValidEmail u = true -> test form_email u = true) /\
  (test form_email [97; 64; 98; 64; 99; 46; 100]%N = true /\
   Helpers.isValidEmail [97; 64; 98; 64; 99; 46; 100]%N = false) /\
  (test form_email [32; 97; 64; 98; 46; 99; 32]%N = true /\
   Helpers.isValidEmail [32; 97; 64; 98; 46; 99; 32]%N = false).
Proof.
  split; [|split; split; reflexivity].
  intros H. apply valid_email_shape in H
    as (a & b & d & -> & [Hna Ha] & [Hnb Hb] & [Hnd Hd]).
  apply test_Match. exists [], (a ++ [64%N] ++ b ++ [46%N] ++ d), [].
  split; [by rewrite app_nil_r|].
  unfold form_email, non_space. apply Match_email. exists a, b, d.
  assert (Hp : forall v,
            Forall (fun c => TodoList.is_white_space c = false /\ c <> 64%N) v ->
            Forall (fun c => negb (TodoList.is_white_space c) = true) v).
  { intros v Hv. eapply Forall_impl; [exact Hv|]. by intros c [-> _]. }
  repeat split; auto.
Qed.

Lemma valid_email_passes_form_witness :
  test form_email [97; 64; 98; 46; 99]%N = true.
Proof.
  assert (H : Helpers.isValidEmail [97; 64; 98; 46; 99]%N = true)
    by reflexivity.
  exact (proj1 (valid_email_passes_form _) H).
Defined.

End EmailPatterns.

(** * LoginForm *)

Section LoginFormProperties.
Import LoginForm.
Implicit Types (s : State) (v : list N) (o : Settlement).

Lemma newErrors_empty s : newErrors s = ∅ <-> fields_valid s.
Proof.
  unfold newErrors, fields_valid.
  destruct (email s) as [|c e] eqn:Ee; simpl.
  { split; [|by intros [? _]].
    destruct (password s) as [|c p]; simpl; [|case_match];
      intros Hx; exfalso; revert Hx;
      first [apply insert_non_empty | apply map_non_empty_singleton]. }
  destruct (Regex.test Regex.form_email (c :: e)) eqn:Et; simpl.
  - destruct (password s) as [|c' p] eqn:Ep; simpl.
    { split; [|intros [_ ?]; lia]. intros H. exfalso. revert H.
      apply insert_non_empty. }
    destruct (Nat.ltb (S (length p)) 6) eqn:El.
    + apply Nat.ltb_lt in El. split; [|intros [_ ?]; lia].
      intros H. exfalso. revert H. apply insert_non_empty.
    + apply Nat.ltb_ge in El. split; [done | done].
  - split; [|by intros [? _]].
    destruct (password s) as [|c' p]; simpl; [|case_match];
      intros Hx; exfalso; revert Hx;
      first [apply insert_non_empty | apply map_non_empty_singleton].
Qed.

Lemma newErrors_form s : newErrors s !! "form" = None.
Proof.
  unfold newErrors.
  repeat case_match; rewrite ?lookup_insert_ne by done;
    rewrite ?lookup_singleton_ne by done; by rewrite ?lookup_empty.
Qed.

(** X18. [validate] passes exactly when the e-mail matches the pattern and
    the password has at least six code units, and then it clears all
    errors; in every case it replaces the errors, so an earlier form error
    goes; an empty e-mail and an empty password are reported as required,
    not as malformed or short. *)
Theorem login_validate s :
  ((validate s).1 = Normal true <-> fields_valid s) /\
  ((validate s).1 = Normal false <-> ~ fields_valid s) /\
  (fields_valid s -> errors (validate s).2 = ∅) /\
  errors (validate s).2 !! "form" = None /\
  (email s = [] ->
   errors (validate s).2 !! "email" = Some "Email is required") /\
  (password s = [] ->
   errors (validate s).2 !! "password" = Some "Password is required").
Proof.
  unfold validate; simpl.
  pose proof (newErrors_empty s) as He.
  split; [|split; [|split; [|split; [|split]]]].
  - case_bool_decide as Hd; split.
    + intros _. by apply He.
    + done.
    + done.
    + intros Hv. by apply He in Hv.
  - case_bool_decide as Hd; split.
    + done.
    + intros Hn. destruct Hn. by apply He.
    + intros _ Hv. by apply He in Hv.
    + done.
  - intros H. by apply He.
  - apply newErrors_form.
  - intros E. unfold newErrors. rewrite E. simpl.
    repeat case_match; rewrite ?lookup_insert_ne by done;
      by rewrite lookup_singleton_eq.
  - intros E. unfold newErrors. rewrite E. simpl.
    by rewrite lookup_insert_eq.
Qed.

Lemma login_validate_witness :
  (validate (mkState [97; 64; 98; 46; 99]%N [49; 50; 51; 52; 53; 54]%N
               {[ "form" := "Login failed. Please try again." ]}
               false false [] 0)).1 = Normal true.
Proof.
  apply (proj1 (login_validate _)). split; [reflexivity | simpl; lia].
Defined.

(** [handleSubmit] on fields that do not pass: only the errors change. *)
Lemma handleSubmit_invalid onSubmit s :
  ~ fields_valid s ->
  handleSubmit onSubmit s =
  (Normal (),
   {| email := email s; password := password s; errors := newErrors s;
      isSubmitting := isSubmitting s; success := success s;
      submitted := submitted s; parked := parked s |}).
Proof.
  intros H. unfold handleSubmit, bind, validate; simpl.
  rewrite bool_decide_eq_false_2; [done|]. by rewrite newErrors_empty.
Qed.

(** [handleSubmit] on fields that pass, when [onSubmit] returns. *)
Lemma handleSubmit_valid_returns s :
  fields_valid s ->
  handleSubmit ReturnsPromise s =
  (Suspended,
   {| email := email s; password := password s; errors := ∅;
      isSubmitting := true; success := success s;
      submitted := (email s, password s) :: submitted s;
      parked := S (parked s) |}).
Proof.
  intros H. apply newErrors_empty in H.
  unfold handleSubmit, bind, validate; simpl.
  rewrite bool_decide_eq_true_2 by done. simpl. by rewrite H.
Qed.

(** [handleSubmit] on fields that pass, when [onSubmit] throws. *)
Lemma handleSubmit_valid_throws s err :
  fields_valid s ->
  handleSubmit (ThrowsSync err) s =
  (Normal (),
   {| email := email s; password := password s;
      errors := {[ "form" := "Login failed. Please try again." ]};
      isSubmitting := false; success := success s;
      submitted := (email s, password s) :: submitted s;
      parked := parked s |}).
Proof.
  intros H. apply newErrors_empty in H.
  unfold handleSubmit, bind, validate; simpl.
  rewrite bool_decide_eq_true_2 by done. done.
Qed.

(** X19. A submit with fields that do not pass [validate] never reaches
    [onSubmit]: no call is made, nothing is awaited, the fields and the
    submitting and success flags stay, and at least one error is shown. *)
Theorem login_invalid_not_submitted onSubmit s :
  ~ fields_valid s ->
  (step (Submit onSubmit) s).1 = Normal () /\
  submitted (exec (Submit onSubmit) s) = submitted s /\
  parked (exec (Submit onSubmit) s) = parked s /\
  isSubmitting (exec (Submit onSubmit) s) = isSubmitting s /\
  success (exec (Submit onSubmit) s) = success s /\
  email (exec (Submit onSubmit) s) = email s /\
  password (exec (Submit onSubmit) s) = password s /\
  errors (exec (Submit onSubmit) s) <> ∅.
Proof.
  intros H. unfold exec, step. rewrite (handleSubmit_invalid _ _ H). simpl.
  repeat split. by rewrite newErrors_empty.
Qed.

Lemma login_invalid_not_submitted_witness :
  submitted (exec (Submit ReturnsPromise)
               (mkState [97; 64; 98]%N [49; 50; 51; 52; 53; 54]%N ∅
                  false false [] 0)) = [].
Proof.
  assert (H : ~ fields_valid (mkState [97; 64; 98]%N
                                [49; 50; 51; 52; 53; 54]%N ∅
                                false false [] 0)).
  { intros [H _]. revert H. cbv. discriminate. }
  exact (proj1 (proj2 (login_invalid_not_submitted ReturnsPromise _ H))).
Defined.

Lemma typing_frame (evs : list Event) s :
  typing evs ->
  errors (run evs s) = errors s /\
  isSubmitting (run evs s) = isSubmitting s /\
  success (run evs s) = success s /\
  submitted (run evs s) = submitted s /\
  parked (run evs s) = parked s.
Proof.
  revert s. induction evs as [|ev evs IH]; intros s Ht; [done|].
  inversion Ht as [|? ? Hev Hrest]; subst.
  destruct ev as [v|v| |]; try done.
  - destruct (IH (exec (ChangeEmail v) s) Hrest) as (He & Hi & Hs & Hsub & Hp).
    simpl. by rewrite He, Hi, Hs, Hsub, Hp.
  - destruct (IH (exec (ChangePassword v) s) Hrest)
      as (He & Hi & Hs & Hsub & Hp).
    simpl. by rewrite He, Hi, Hs, Hsub, Hp.
Qed.

Lemma run_snoc_login (evs : list Event) ev s :
  run (evs ++ [ev]) s = exec ev (run evs s).
Proof. unfold run. by rewrite fold_left_app. Qed.

(** The state a pending submit leaves while the user types. *)
Lemma pending_submit s (evs : list Event) :
  fields_valid s ->
  typing evs ->
  let s1 := run (Submit ReturnsPromise :: evs) s in
  errors s1 = ∅ /\
  isSubmitting s1 = true /\
  success s1 = success s /\
  submitted s1 = (email s, password s) :: submitted s /\
  parked s1 = S (parked s).
Proof.
  intros Hv Ht s1. subst s1. simpl.
  destruct (typing_frame evs (exec (Submit ReturnsPromise) s) Ht)
    as (-> & -> & -> & -> & ->).
  unfold exec, step. by rewrite (handleSubmit_valid_returns s Hv).
Qed.

(** X20. A submit with fields that pass, whose [onSubmit] returns and is
    fulfilled: [onSubmit] is called once with the e-mail and password of the
    submit; the button is disabled until the settlement; the settlement
    shows the success message, empties both fields (whatever was typed
    meanwhile), clears the errors and enables the button again. *)
Theorem login_success s (evs : list Event) :
  fields_valid s ->
  typing evs ->
  let s1 := run (Submit ReturnsPromise :: evs) s in
  let s2 := run (Submit ReturnsPromise :: evs ++ [Settle Fulfilled]) s in
  isSubmitting s1 = true /\
  submitted s1 = (email s, password s) :: submitted s /\
  success s2 = true /\
  email s2 = [] /\
  password s2 = [] /\
  errors s2 = ∅ /\
  isSubmitting s2 = false /\
  submitted s2 = (email s, password s) :: submitted s.
Proof.
  intros Hv Ht s1 s2.
  assert (E2 : s2 = exec (Settle Fulfilled) s1).
  { subst s1 s2. by rewrite app_comm_cons, run_snoc_login. }
  destruct (pending_submit s evs Hv Ht) as (He & Hi & Hs & Hsub & Hp).
  fold s1 in He, Hi, Hs, Hsub, Hp.
  split; [done|]. split; [done|].
  rewrite E2. unfold exec, step. rewrite Hp. simpl.
  by rewrite Hsub.
Qed.

Lemma login_success_witness :
  success (run [Submit ReturnsPromise; ChangeEmail [120]%N; Settle Fulfilled]
             (mkState [97; 64; 98; 46; 99]%N [49; 50; 51; 52; 53; 54]%N ∅
                false false [] 0)) = true.
Proof.
  assert (Hv : fields_valid (mkState [97; 64; 98; 46; 99]%N
                               [49; 50; 51; 52; 53; 54]%N ∅
                               false false [] 0))
    by (split; [reflexivity | simpl; lia]).
  assert (Ht : typing [ChangeEmail [120]%N]) by repeat constructor.
  exact (proj1 (proj2 (proj2 (login_success _ _ Hv Ht)))).
Defined.

(** X21. A submit with fields that pass, whose [onSubmit] fails, by a
    rejection or by a throw: the failure ends in the form error
    "Login failed. Please try again.", the button is enabled again, no
    success is shown, and the fields keep what they hold (what was typed
    while the submit was pending included). *)
Theorem login_failure s (evs : list Event) (reason : JsValue) :
  fields_valid s ->
  typing evs ->
  let s1 := run (Submit ReturnsPromise :: evs) s in
  let s2 := run (Submit ReturnsPromise :: evs ++ [Settle (Rejected reason)]) s in
  let s3 := exec (Submit (ThrowsSync reason)) s in
  (errors s2 = {[ "form" := "Login failed. Please try again." ]} /\
   isSubmitting s2 = false /\
   success s2 = success s /\
   email s2 = email s1 /\
   password s2 = password s1 /\
   submitted s2 = (email s, password s) :: submitted s) /\
  (errors s3 = {[ "form" := "Login failed. Please try again." ]} /\
   isSubmitting s3 = false /\
   success s3 = success s /\
   email s3 = email s /\
   password s3 = password s /\
   submitted s3 = (email s, password s) :: submitted s).
Proof.
  intros Hv Ht s1 s2 s3. split.
  - assert (E2 : s2 = exec (Settle (Rejected reason)) s1).
    { subst s1 s2. by rewrite app_comm_cons, run_snoc_login. }
    destruct (pending_submit s evs Hv Ht) as (He & Hi & Hs & Hsub & Hp).
    fold s1 in He, Hi, Hs, Hsub, Hp.
    rewrite E2. unfold exec, step. rewrite Hp. simpl.
    by rewrite Hsub, Hs.
  - subst s3. unfold exec, step.
    by rewrite (handleSubmit_valid_throws s reason Hv).
Qed.

Lemma login_failure_witness :
  errors (run [Submit ReturnsPromise; Settle (Rejected (JsError "401"))]
            (mkState [97; 64; 98; 46; 99]%N [49; 50; 51; 52; 53; 54]%N ∅
               false false [] 0))
  = {[ "form" := "Login failed. Please try again." ]}.
Proof.
  assert (Hv : fields_valid (mkState [97; 64; 98; 46; 99]%N
                               [49; 50; 51; 52; 53; 54]%N ∅
                               false false [] 0))
    by (split; [reflexivity | simpl; lia]).
  assert (Ht : typing []) by constructor.
  exact (proj1 (proj1 (login_failure _ [] (JsError "401") Hv Ht))).
Defined.

(** X22. [handleSubmit] never throws: in any state, for any event, the
    segment that runs completes normally or parks at the [await]; and
    whenever it completes normally after a submit the button is enabled. *)
Theorem login_never_throws (ev : Event) s :
  (forall err, (step ev s).1 <> Thrown err) /\
  (forall onSubmit,
     ev = Submit onSubmit -> fields_valid s ->
     (step ev s).1 = Normal () -> isSubmitting (exec ev s) = false) /\
  (forall o, ev = Settle o -> parked s <> 0 ->
             isSubmitting (exec ev s) = false).
Proof.
  split; [|split].
  - intros err. destruct ev as [v|v|onSubmit|o]; simpl; try done.
    + destruct (decide (newErrors s = ∅)) as [Hv|Hv];
        rewrite newErrors_empty in Hv.
      * destruct onSubmit;
          [by rewrite handleSubmit_valid_throws
          | by rewrite handleSubmit_valid_returns].
      * by rewrite handleSubmit_invalid.
    + destruct (parked s); [done|]. by destruct o.
  - intros onSubmit -> Hv. unfold exec, step. destruct onSubmit.
    + by rewrite handleSubmit_valid_throws.
    + by rewrite handleSubmit_valid_returns.
  - intros o -> Hp. unfold exec, step. destruct (parked s); [done|].
    by destruct o.
Qed.

Lemma login_never_throws_witness :
  isSubmitting
    (exec (Submit (ThrowsSync JsNull))
       (mkState [97; 64; 98; 46; 99]%N [49; 50; 51; 52; 53; 54]%N ∅
          false false [] 0)) = false.
Proof.
  assert (Hv : fields_valid (mkState [97; 64; 98; 46; 99]%N
                               [49; 50; 51; 52; 53; 54]%N ∅
                               false false [] 0))
    by (split; [reflexivity | simpl; lia]).
  refine (proj1 (proj2 (login_never_throws _ _)) (ThrowsSync JsNull)
            eq_refl Hv _).
  reflexivity.
Defined.

End LoginFormProperties.

(** * helpers.ts: truncate *)

Section TruncateProperties.
Import Helpers.
Implicit Types (text r : list N) (n : JsNumber).

(** For a length that does not fit under a non-negative finite bound, the
    bound rounded down is a proper prefix length. *)
Lemma floor_below_length (len : nat) (q : QArith_base.Q) :
  QArith_base.Qle_bool (QArith_base.inject_Z 0) q = true ->
  QArith_base.Qle_bool (QArith_base.inject_Z (Z.of_nat len)) q = false ->
  (0 <= Qround.Qfloor q < Z.of_nat len)%Z.
Proof.
  intros H0 Hlen. apply QArith_base.Qle_bool_iff in H0.
  assert (Hlt : QArith_base.Qlt q (QArith_base.inject_Z (Z.of_nat len))).
  { apply QArith_base.Qnot_le_lt. intros Hle.
    apply QArith_base.Qle_bool_iff in Hle. congruence. }
  split.
  - apply Qround.Qfloor_resp_le in H0. by rewrite Qround.Qfloor_Z in H0.
  - rewrite QArith_base.Zlt_Qlt.
    eapply QArith_base.Qle_lt_trans; [apply Qround.Qfloor_le | exact Hlt].
Qed.

(** The bound rounded down, plus one, does not fit under the bound. *)
Lemma floor_succ_above (q : QArith_base.Q) :
  (0 <= Qround.Qfloor q)%Z ->
  QArith_base.Qle_bool
    (QArith_base.inject_Z (Z.of_nat (S (Z.to_nat (Qround.Qfloor q))))) q
  = false.
Proof.
  intros H0. apply not_true_is_false. intros Hle.
  apply QArith_base.Qle_bool_iff in Hle.
  pose proof (Qround.Qlt_floor q) as Hlt.
  assert (E : Z.of_nat (S (Z.to_nat (Qround.Qfloor q)))
              = (Qround.Qfloor q + 1)%Z) by lia.
  rewrite E in Hle.
  exact (QArith_base.Qlt_irrefl _ (QArith_base.Qlt_le_trans _ _ _ Hlt Hle)).
Qed.

(** What [truncate] returns when it cuts: a prefix of the text, of the
    length the bound rounds down to, and the ellipsis; the prefix is proper
    unless the bound is [NaN]. *)
Lemma truncate_cut text n :
  lt_zero n = false ->
  length_le (length text) n = false ->
  exists k,
    (n <> NaN -> k < length text) /\
    k <= length text /\
    slice0 text n = take k text /\
    length_le (S k) n = false /\
    slice0 (take k text ++ [8230%N]) n = take k text.
Proof.
  destruct n as [q| | |]; simpl; try done.
  - intros H0 Hlen. apply negb_false_iff in H0.
    destruct (floor_below_length _ _ H0 Hlen) as [Hf0 Hflen].
    exists (Z.to_nat (Qround.Qfloor q)). rewrite H0.
    split; [lia|]. split; [lia|]. split; [done|].
    split; [by apply floor_succ_above|].
    rewrite take_app_le by (rewrite length_take; lia).
    by rewrite take_take, Nat.min_id.
  - intros _ _. exists 0. split; [done|]. split; [lia|]. done.
Qed.

(** X23. [truncate] throws exactly for a negative [maxLength].  Otherwise,
    for a [maxLength] that is a number, it returns the text itself or a
    proper prefix of the text followed by the ellipsis, so never more
    characters than the text has; for [NaN] it returns the ellipsis alone,
    whatever the text, the empty text included. *)
Theorem truncate_result text n :
  (truncate text n = Thrown (JsError "maxLength must be non-negative")
   <-> lt_zero n = true) /\
  (n <> NaN ->
   forall r, truncate text n = Normal r ->
     (r = text \/
      exists k, k < length text /\ r = take k text ++ [8230%N]) /\
     length r <= length text) /\
  truncate text NaN = Normal [8230%N].
Proof.
  split; [|split; [|done]].
  - unfold truncate. destruct (lt_zero n); [done|].
    by destruct (length_le (length text) n).
  - intros Hn r. unfold truncate.
    destruct (lt_zero n) eqn:H0; [done|].
    destruct (length_le (length text) n) eqn:Hlen.
    + intros [= <-]. split; [by left | done].
    + intros [= <-].
      destruct (truncate_cut text n H0 Hlen) as (k & Hk & _ & -> & _).
      specialize (Hk Hn). split; [right; by exists k|].
      rewrite length_app, length_take. simpl. lia.
Qed.

Lemma truncate_result_witness :
  length [72; 101; 8230]%N <= length [72; 101; 108; 108; 111]%N.
Proof.
  assert (Hn : Finite (QArith_base.Qmake 5 2) <> NaN) by discriminate.
  assert (Hr : truncate [72; 101; 108; 108; 111]%N
                 (Finite (QArith_base.Qmake 5 2))
               = Normal [72; 101; 8230]%N) by reflexivity.
  exact (proj2 (proj1 (proj2 (truncate_result _ _)) Hn _ Hr)).
Defined.

(** X24. [truncate] is idempotent: truncating its result again with the
    same [maxLength] gives the same string, although a cut result is one
    character longer than the bound rounded down. *)
Theorem truncate_idempotent text n r :
  truncate text n = Normal r -> truncate r n = Normal r.
Proof.
  unfold truncate. destruct (lt_zero n) eqn:H0; [done|].
  destruct (length_le (length text) n) eqn:Hlen.
  - intros [= <-]. by rewrite Hlen.
  - intros [= <-].
    destruct (truncate_cut text n H0 Hlen) as (k & _ & Hk & -> & Hle & Hs).
    rewrite length_app, length_take. simpl.
    replace (k `min` length text + 1) with (S k) by lia.
    by rewrite Hle, Hs.
Qed.

Lemma truncate_idempotent_witness :
  truncate [72; 101; 108; 8230]%N (Finite (QArith_base.Qmake 7 2))
  = Normal [72; 101; 108; 8230]%N.
Proof.
  apply (truncate_idempotent [72; 101; 108; 108; 111]%N
           (Finite (QArith_base.Qmake 7 2))).
  reflexivity.
Defined.

End TruncateProperties.
